(** * pipeline-service-exporter: the PipelineServiceCollector

    A verification development for [collector/collector.go].  The collector
    is a Prometheus collector with two labelled gauges; one collection pass
    lists the pipeline runs, computes two durations per run, sets the gauges
    and streams them to the exporter's channel, all under one mutex.

    The Go code is embedded as a program over a small set of primitive
    operations (mutex, source call, duration calls, logger, gauges).  The
    same program is given a sequential semantics ([run]) and an
    interleaving semantics for two concurrent invocations ([step]). *)

From Stdlib Require Import QArith Lqa.
From stdpp Require Import gmap strings list fin_maps.

Local Open Scope string_scope.
Local Open Scope list_scope.

(** ** Data model *)

(** Go's [float64].  The collector only stores and forwards these values and
    the duration calculators subtract two points in time, so they are
    modelled as exact rationals; rounding is not modelled. *)
Definition float64 : Type := Q.

(** A point in time, in seconds since the epoch. *)
Definition Time : Type := Q.

(** Go's [error] values that occur in a pass.  The three kinds are the
    taxonomy of the specification. *)
Inductive error : Type :=
| SourceUnavailable
| MissingTimestamp
| InvalidOrdering.

(** The pipeline-run object.  [Name] and [UID] are the fields that
    [collect] reads; the three optional lifecycle timestamps are the ones
    the duration calculators read. *)
Record PipelineRun : Type := {
  Name : string;
  UID : string;
  CreationTimestamp : option Time;
  StartTime : option Time;
  CompletionTime : option Time
}.

Record PipelineRunList : Type := { Items : list PipelineRun }.

(** ** The slice of the Prometheus client that the collector uses *)
Module prometheus.

Record GaugeOpts : Type := {
  Namespace : string;
  Subsystem : string;
  Name : string;
  Help : string
}.

Record Desc : Type := {
  fqName : string;
  help : string;
  variableLabels : list string
}.

(** A gauge vector: its descriptor and one value per label tuple.  Both
    vectors of the collector are declared with two labels and always
    addressed with two label values, so the label tuple is a pair. *)
Record GaugeVec : Type := {
  desc : Desc;
  metrics : gmap (string * string) float64
}.

(** One sample sent to the exporter's channel. *)
Record Metric : Type := {
  metricDesc : Desc;
  labelValues : string * string;
  value : float64
}.

Definition BuildFQName (namespace subsystem name : string) : string :=
  if decide (name = "") then ""
  else if decide (namespace ≠ "" ∧ subsystem ≠ "") then
    namespace +:+ "_" +:+ subsystem +:+ "_" +:+ name
  else if decide (namespace ≠ "") then namespace +:+ "_" +:+ name
  else if decide (subsystem ≠ "") then subsystem +:+ "_" +:+ name
  else name.

Definition NewGaugeVec (opts : GaugeOpts) (labelNames : list string) : GaugeVec :=
  {| desc := {| fqName := BuildFQName (Namespace opts) (Subsystem opts) (Name opts);
                help := Help opts;
                variableLabels := labelNames |};
     metrics := ∅ |}.

(** [g.WithLabelValues(name, uid).Set(v)]: upsert, last write wins. *)
Definition Set_ (g : GaugeVec) (name uid : string) (v : float64) : GaugeVec :=
  {| desc := desc g; metrics := <[(name, uid) := v]> (metrics g) |}.

(** [g.Collect(ch)]: every held (label tuple, value) pair, as a sample. *)
Definition Collect (g : GaugeVec) : list Metric :=
  (λ kv, {| metricDesc := desc g; labelValues := kv.1; value := kv.2 |})
    <$> map_to_list (metrics g).

(** [g.Describe(ch)]. *)
Definition Describe (g : GaugeVec) : list Desc := [desc g].

End prometheus.

(** ** DurationCalculator *)
Module DurationCalculator.

(** The start reference of the completed duration, which the
    specification leaves open between the two. *)
Inductive StartReference : Type := FromCreation | FromScheduled.

(** Modelled from the spec: [calculateScheduledDuration] is not part of
    [collector.go].  It returns the seconds elapsed between the creation
    time and the scheduled (start) time, fails with [MissingTimestamp]
    when either is absent and with [InvalidOrdering] when the scheduled
    time precedes the creation time.  Beside an error it returns Go's
    zero value. *)
Definition calculateScheduledDuration (run : PipelineRun) : float64 * option error :=
  match CreationTimestamp run, StartTime run with
  | Some created, Some scheduled =>
      if Qle_bool created scheduled
      then ((scheduled - created)%Q, None)
      else (0%Q, Some InvalidOrdering)
  | _, _ => (0%Q, Some MissingTimestamp)
  end.

(** Modelled from the spec: [calculateCompletedDuration] is not part of
    [collector.go].  Same as above with the completion time as the end;
    the start is the creation or the scheduled time, by [ref]. *)
Definition calculateCompletedDuration (ref : StartReference) (run : PipelineRun)
  : float64 * option error :=
  let start := match ref with
               | FromCreation => CreationTimestamp run
               | FromScheduled => StartTime run
               end in
  match start, CompletionTime run with
  | Some started, Some completed =>
      if Qle_bool started completed
      then ((completed - started)%Q, None)
      else (0%Q, Some InvalidOrdering)
  | _, _ => (0%Q, Some MissingTimestamp)
  end.

End DurationCalculator.

(** ** Log records *)

Inductive logValue : Type :=
| LogString (s : string)
| LogError (e : error).

Definition keyvals : Type := list (string * logValue).

(** [level.Error(logger)]: the record is prefixed with its level. *)
Definition level_Error (kvs : keyvals) : keyvals :=
  ("level", LogString "error") :: kvs.

(** ** Programs over the collector's primitive operations *)

(** The two gauge vectors held by the collector. *)
Inductive gauge : Type := Scheduled | Completed.

Inductive op : Type :=
| MutexLock                                              (* c.mutex.Lock() *)
| MutexUnlock                                            (* c.mutex.Unlock() *)
| CallGetPipelineRuns                                    (* getPipelineRuns() *)
| CallCalculateScheduledDuration (pipelineRun : PipelineRun)
| CallCalculateCompletedDuration (pipelineRun : PipelineRun)
| LoggerLog (kvs : keyvals)                              (* c.logger.Log(...) *)
| GaugeSet (g : gauge) (name uid : string) (v : float64) (* WithLabelValues(..).Set(v) *)
| GaugeCollect (g : gauge).                              (* c.duration*.Collect(ch) *)

(** What an operation returns to the program. *)
Definition res (o : op) : Type :=
  match o with
  | CallGetPipelineRuns => PipelineRunList * option error
  | CallCalculateScheduledDuration _
  | CallCalculateCompletedDuration _ => float64 * option error
  | _ => unit
  end.

Inductive prog (A : Type) : Type :=
| Ret (a : A)
| Vis (o : op) (k : res o → prog A).
Arguments Ret {A} a.
Arguments Vis {A} o k.

Fixpoint prog_bind {A B : Type} (f : A → prog B) (p : prog A) : prog B :=
  match p with
  | Ret a => f a
  | Vis o k => Vis o (λ x, prog_bind f (k x))
  end.

#[global] Instance prog_ret : MRet prog := @Ret.
#[global] Instance prog_mbind : MBind prog := @prog_bind.

Definition call (o : op) : prog (res o) := Vis o Ret.

(** [for _, x := range l { body }] *)
Fixpoint forRange {A : Type} (l : list A) (body : A → prog unit) : prog unit :=
  match l with
  | [] => Ret tt
  | x :: l' => body x;; forRange l' body
  end.

(** [level.Error(c.logger).Log(...)] *)
Definition logError (kvs : keyvals) : prog unit := call (LoggerLog (level_Error kvs)).

(** ** The collector *)

(** The body of the loop of [collect], lines 76-89. *)
Definition collectItem (pipelineRun : PipelineRun) : prog unit :=
  '(scheduledDuration, err) ← call (CallCalculateScheduledDuration pipelineRun);
  match err with
  | Some e =>
      logError [("msg", LogString "Error while calculating the scheduled time of a PipelineRun: ");
                ("err", LogError e)]
  | None => Ret tt
  end;;
  '(completedDuration, err) ← call (CallCalculateCompletedDuration pipelineRun);
  match err with
  | Some e =>
      logError [("msg", LogString "Error while calculating the completion time of a PipelineRun: ");
                ("err", LogError e)]
  | None => Ret tt
  end;;
  call (GaugeSet Scheduled (Name pipelineRun) (UID pipelineRun) scheduledDuration);;
  call (GaugeSet Completed (Name pipelineRun) (UID pipelineRun) completedDuration).

(** [collect], lines 67-97. *)
Definition collect : prog (option error) :=
  '(prList, err) ← call CallGetPipelineRuns;
  match err with
  | Some e =>
      logError [("msg", LogString "Error while fetching PipelineRuns");
                ("err", LogError e)];;
      Ret (Some e)
  | None =>
      forRange (Items prList) collectItem;;
      call (GaugeCollect Scheduled);;
      call (GaugeCollect Completed);;
      Ret None
  end.

(** [Collect], lines 58-64.  The deferred unlock runs when the body is
    over, on both of its paths. *)
Definition Collect : prog unit :=
  call MutexLock;;
  err ← collect;
  match err with
  | Some e =>
      logError [("msg", LogString "error collecting pipeline-service metrics");
                ("error", LogError e)]
  | None => Ret tt
  end;;
  call MutexUnlock.

Section Collector.

Context {Logger : Type}.

(** [sync.Mutex] is its state: locked or not. *)
Record PipelineServiceCollector : Type := {
  logger : Logger;
  mutex : bool;
  durationScheduled : prometheus.GaugeVec;
  durationCompleted : prometheus.GaugeVec
}.

Definition NewCollector (logger : Logger) : PipelineServiceCollector * option error :=
  let durationScheduled := prometheus.NewGaugeVec
    {| prometheus.Namespace := ""; prometheus.Subsystem := "";
       prometheus.Name := "pipelinerun_duration_scheduled_seconds";
       prometheus.Help := "Duration in seconds for a PipelineRun to be scheduled." |}
    ["name"; "uid"] in
  let durationCompleted := prometheus.NewGaugeVec
    {| prometheus.Namespace := ""; prometheus.Subsystem := "";
       prometheus.Name := "pipelinerun_duration_completed_seconds";
       prometheus.Help := "Duration in seconds for a PipelineRun to complete." |}
    ["name"; "uid"] in
  ({| logger := logger;
      mutex := false;
      durationScheduled := durationScheduled;
      durationCompleted := durationCompleted |}, None).

(** [Describe]: the descriptors sent to the channel, in order. *)
Definition Describe (c : PipelineServiceCollector) : list prometheus.Desc :=
  prometheus.Describe (durationScheduled c) ++ prometheus.Describe (durationCompleted c).

(** What a pass acts on: the collector, the exporter's channel (the
    samples sent so far), the records handed to the logger, and the
    operations performed so far. *)
Record World : Type := {
  c : PipelineServiceCollector;
  ch : list prometheus.Metric;
  logged : list keyvals;
  trace : list op
}.

Definition gaugeVec (g : gauge) (c : PipelineServiceCollector) : prometheus.GaugeVec :=
  match g with
  | Scheduled => durationScheduled c
  | Completed => durationCompleted c
  end.

Definition setMutex (b : bool) (w : World) : World :=
  {| c := {| logger := logger (c w); mutex := b;
             durationScheduled := durationScheduled (c w);
             durationCompleted := durationCompleted (c w) |};
     ch := ch w; logged := logged w; trace := trace w |}.

Definition setGauge (g : gauge) (name uid : string) (v : float64) (w : World) : World :=
  {| c := {| logger := logger (c w); mutex := mutex (c w);
             durationScheduled :=
               match g with
               | Scheduled => prometheus.Set_ (durationScheduled (c w)) name uid v
               | Completed => durationScheduled (c w)
               end;
             durationCompleted :=
               match g with
               | Scheduled => durationCompleted (c w)
               | Completed => prometheus.Set_ (durationCompleted (c w)) name uid v
               end |};
     ch := ch w; logged := logged w; trace := trace w |}.

Definition send (ms : list prometheus.Metric) (w : World) : World :=
  {| c := c w; ch := ch w ++ ms; logged := logged w; trace := trace w |}.

Definition writeLog (kvs : keyvals) (w : World) : World :=
  {| c := c w; ch := ch w; logged := logged w ++ [kvs]; trace := trace w |}.

Definition record (o : op) (w : World) : World :=
  {| c := c w; ch := ch w; logged := logged w; trace := trace w ++ [o] |}.

(** The duration calculators are functions of the package that are not in
    [collector.go]; the collector is verified for all of them. *)
Variable calculateScheduledDuration : PipelineRun → float64 * option error.
Variable calculateCompletedDuration : PipelineRun → float64 * option error.

(** One operation.  [getPipelineRuns] is what the source call of this pass
    returns.  [None]: the operation does not return, which is [Lock] on a
    held mutex (it blocks) and [Unlock] of a free one (a fatal error). *)
Definition handle (getPipelineRuns : PipelineRunList * option error)
    (o : op) (w : World) : option (res o * World) :=
  match o return option (res o * World) with
  | MutexLock =>
      if mutex (c w) then None else Some (tt, record MutexLock (setMutex true w))
  | MutexUnlock =>
      if mutex (c w) then Some (tt, record MutexUnlock (setMutex false w)) else None
  | CallGetPipelineRuns =>
      Some (getPipelineRuns, record CallGetPipelineRuns w)
  | CallCalculateScheduledDuration r =>
      Some (calculateScheduledDuration r, record (CallCalculateScheduledDuration r) w)
  | CallCalculateCompletedDuration r =>
      Some (calculateCompletedDuration r, record (CallCalculateCompletedDuration r) w)
  | LoggerLog kvs =>
      Some (tt, record (LoggerLog kvs) (writeLog kvs w))
  | GaugeSet g name uid v =>
      Some (tt, record (GaugeSet g name uid v) (setGauge g name uid v w))
  | GaugeCollect g =>
      Some (tt, record (GaugeCollect g) (send (prometheus.Collect (gaugeVec g (c w))) w))
  end.

(** Sequential semantics: the program runs alone. *)
Fixpoint run {A : Type} (getPipelineRuns : PipelineRunList * option error)
    (p : prog A) (w : World) : option (A * World) :=
  match p with
  | Ret a => Some (a, w)
  | Vis o k =>
      match handle getPipelineRuns o w with
      | Some (x, w') => run getPipelineRuns (k x) w'
      | None => None
      end
  end.

(** ** What a pass does for one item *)

Definition scheduledErrorRecord (e : error) : keyvals :=
  level_Error [("msg", LogString "Error while calculating the scheduled time of a PipelineRun: ");
               ("err", LogError e)].

Definition completedErrorRecord (e : error) : keyvals :=
  level_Error [("msg", LogString "Error while calculating the completion time of a PipelineRun: ");
               ("err", LogError e)].

Definition fetchErrorRecord (e : error) : keyvals :=
  level_Error [("msg", LogString "Error while fetching PipelineRuns");
               ("err", LogError e)].

Definition collectErrorRecord (e : error) : keyvals :=
  level_Error [("msg", LogString "error collecting pipeline-service metrics");
               ("error", LogError e)].

(** The value that the calculator of gauge [g] returns for [r], beside an
    error or not. *)
Definition durationOf (g : gauge) (r : PipelineRun) : float64 :=
  match g with
  | Scheduled => (calculateScheduledDuration r).1
  | Completed => (calculateCompletedDuration r).1
  end.

(** The records logged for one item: one per failed calculation. *)
Definition itemLogs (r : PipelineRun) : list keyvals :=
  match (calculateScheduledDuration r).2 with
  | Some e => [scheduledErrorRecord e]
  | None => []
  end ++
  match (calculateCompletedDuration r).2 with
  | Some e => [completedErrorRecord e]
  | None => []
  end.

(** The operations performed for one item, in order. *)
Definition itemOps (r : PipelineRun) : list op :=
  [CallCalculateScheduledDuration r] ++
  match (calculateScheduledDuration r).2 with
  | Some e => [LoggerLog (scheduledErrorRecord e)]
  | None => []
  end ++
  [CallCalculateCompletedDuration r] ++
  match (calculateCompletedDuration r).2 with
  | Some e => [LoggerLog (completedErrorRecord e)]
  | None => []
  end ++
  [GaugeSet Scheduled (Name r) (UID r) (durationOf Scheduled r);
   GaugeSet Completed (Name r) (UID r) (durationOf Completed r)].

(** The values held by gauge [g] after the items of a pass, from [m]. *)
Definition setItems (g : gauge) (items : list PipelineRun)
    (m : gmap (string * string) float64) : gmap (string * string) float64 :=
  foldl (λ m r, <[(Name r, UID r) := durationOf g r]> m) m items.

Definition gaugeMetrics (g : gauge) (w : World) : gmap (string * string) float64 :=
  prometheus.metrics (gaugeVec g (c w)).

(** The samples sent and the records logged between two worlds. *)
Definition emitted (w w' : World) : list prometheus.Metric :=
  drop (length (ch w)) (ch w').

Definition newLogs (w w' : World) : list keyvals :=
  drop (length (logged w)) (logged w').

Definition newOps (w w' : World) : list op :=
  drop (length (trace w)) (trace w').

(** What the loop of [collect] over [items] does to the world. *)
Definition loopEffect (items : list PipelineRun) (w w' : World) : Prop :=
  logger (c w') = logger (c w) ∧
  mutex (c w') = mutex (c w) ∧
  (∀ g, prometheus.desc (gaugeVec g (c w')) = prometheus.desc (gaugeVec g (c w))) ∧
  (∀ g, gaugeMetrics g w' = setItems g items (gaugeMetrics g w)) ∧
  ch w' = ch w ∧
  logged w' = logged w ++ flat_map itemLogs items ∧
  trace w' = trace w ++ flat_map itemOps items.

(** The operations of a whole pass of [Collect] whose listing succeeds. *)
Definition passOps (items : list PipelineRun) : list op :=
  [MutexLock; CallGetPipelineRuns] ++ flat_map itemOps items ++
  [GaugeCollect Scheduled; GaugeCollect Completed; MutexUnlock].

Definition isCalculation (o : op) : bool :=
  match o with
  | CallCalculateScheduledDuration _ | CallCalculateCompletedDuration _ => true
  | _ => false
  end.

Definition isGaugeSet (o : op) : bool :=
  match o with
  | GaugeSet _ _ _ _ => true
  | _ => false
  end.

(** ** Two concurrent invocations of [Collect] *)

Inductive tid : Type := T1 | T2.

#[global] Instance tid_eq_dec : EqDecision tid.
Proof. solve_decision. Defined.

Definition other (i : tid) : tid := match i with T1 => T2 | T2 => T1 end.

(** The rest of each invocation's program, the shared world and the
    operations performed so far, each with the invocation that did it. *)
Record Conf : Type := {
  threads : tid → prog unit;
  world : World;
  hist : list (tid * op)
}.

(** One invocation performs its next operation, when that operation can
    return.  [gpr i] is what the source call returns to invocation [i]. *)
Inductive step (gpr : tid → PipelineRunList * option error) : Conf → Conf → Prop :=
| step_op cf i o k x w' :
    threads cf i = Vis o k →
    handle (gpr i) o (world cf) = Some (x, w') →
    step gpr cf {| threads := λ j, if decide (j = i) then k x else threads cf j;
                   world := w';
                   hist := hist cf ++ [(i, o)] |}.

Definition initial (w : World) : Conf :=
  {| threads := λ _, Collect; world := w; hist := [] |}.

Definition reachable (gpr : tid → PipelineRunList * option error) (w : World)
  : Conf → Prop := rtc (step gpr) (initial w).

End Collector.

Arguments PipelineServiceCollector : clear implicits.
Arguments World : clear implicits.
Arguments Conf : clear implicits.

(** A program without mutex operations. *)
Fixpoint lockFree {A : Type} (p : prog A) : Prop :=
  match p with
  | Ret _ => True
  | Vis o k => o ≠ MutexLock ∧ o ≠ MutexUnlock ∧ ∀ x, lockFree (k x)
  end.

(** The rest of an invocation that holds the mutex: no mutex operation
    until the one [Unlock], which is its last operation. *)
Fixpoint holding (p : prog unit) : Prop :=
  match p with
  | Ret _ => False
  | Vis o k =>
      match o with
      | MutexLock => False
      | MutexUnlock => ∀ x, k x = Ret tt
      | _ => ∀ x, holding (k x)
      end
  end.

(** An invocation that has not begun: its first operation is [Lock], and
    it holds the mutex from there. *)
Definition starting (p : prog unit) : Prop :=
  match p with
  | Vis MutexLock k => ∀ x, holding (k x)
  | _ => False
  end.

Definition byThread (i : tid) (e : tid * op) : Prop := e.1 = i.

(** The configurations in which the two passes are serialized: Idle,
    Collecting, Idle, one invocation after the other.  [i] is the
    invocation that went first. *)
Inductive serial {Logger : Type} (cf : Conf Logger) : Prop :=
| serial_none :
    (∀ j, threads cf j = Collect) →
    hist cf = [] →
    mutex (c (world cf)) = false →
    serial cf
| serial_first i :
    holding (threads cf i) →
    threads cf (other i) = Collect →
    Forall (byThread i) (hist cf) →
    mutex (c (world cf)) = true →
    serial cf
| serial_first_done i :
    threads cf i = Ret tt →
    threads cf (other i) = Collect →
    Forall (byThread i) (hist cf) →
    last (hist cf) = Some (i, MutexUnlock) →
    mutex (c (world cf)) = false →
    serial cf
| serial_second i h1 h2 :
    threads cf i = Ret tt →
    holding (threads cf (other i)) →
    hist cf = h1 ++ h2 →
    Forall (byThread i) h1 →
    Forall (byThread (other i)) h2 →
    last h1 = Some (i, MutexUnlock) →
    head h2 = Some (other i, MutexLock) →
    mutex (c (world cf)) = true →
    serial cf
| serial_both_done i h1 h2 :
    threads cf i = Ret tt →
    threads cf (other i) = Ret tt →
    hist cf = h1 ++ h2 →
    Forall (byThread i) h1 →
    Forall (byThread (other i)) h2 →
    last h1 = Some (i, MutexUnlock) →
    head h2 = Some (other i, MutexLock) →
    mutex (c (world cf)) = false →
    serial cf.

(** ** Derived notions for the properties of a pass *)

(** The label tuple under which both gauges hold the values of a run. *)
Definition labelTuple (r : PipelineRun) : string * string := (Name r, UID r).

Definition isMutexOp (o : op) : bool :=
  match o with
  | MutexLock | MutexUnlock => true
  | _ => false
  end.

Section PassModel.

Context {Logger : Type}.
Variable calculateScheduledDuration : PipelineRun → float64 * option error.
Variable calculateCompletedDuration : PipelineRun → float64 * option error.

(** The value that the loop of [collect] leaves in gauge [g] under the
    label tuple [k]: that of the last item of the list with this tuple,
    if there is one. *)
Definition lastValue (g : gauge) (k : string * string) (items : list PipelineRun)
  : option float64 :=
  foldl (λ acc r,
           if decide (labelTuple r = k)
           then Some (durationOf calculateScheduledDuration calculateCompletedDuration g r)
           else acc)
        None items.

(** The configurations of two concurrent invocations, started in [w0],
    together with the sequential runs they amount to.  [i] is the
    invocation that went first. *)
Inductive serialized (gpr : tid → PipelineRunList * option error)
    (w0 : World Logger) (cf : Conf Logger) : Prop :=
| serialized_none :
    (∀ j, threads cf j = Collect) →
    world cf = w0 →
    serialized gpr w0 cf
| serialized_first i :
    holding (threads cf i) →
    threads cf (other i) = Collect →
    mutex (c (world cf)) = true →
    run calculateScheduledDuration calculateCompletedDuration
        (gpr i) (threads cf i) (world cf)
    = run calculateScheduledDuration calculateCompletedDuration (gpr i) Collect w0 →
    serialized gpr w0 cf
| serialized_first_done i :
    threads cf i = Ret tt →
    threads cf (other i) = Collect →
    mutex (c (world cf)) = false →
    run calculateScheduledDuration calculateCompletedDuration (gpr i) Collect w0
    = Some (tt, world cf) →
    serialized gpr w0 cf
| serialized_second i w1 :
    threads cf i = Ret tt →
    holding (threads cf (other i)) →
    mutex (c (world cf)) = true →
    run calculateScheduledDuration calculateCompletedDuration (gpr i) Collect w0
    = Some (tt, w1) →
    run calculateScheduledDuration calculateCompletedDuration
        (gpr (other i)) (threads cf (other i)) (world cf)
    = run calculateScheduledDuration calculateCompletedDuration (gpr (other i)) Collect w1 →
    serialized gpr w0 cf
| serialized_both_done i w1 :
    threads cf i = Ret tt →
    threads cf (other i) = Ret tt →
    mutex (c (world cf)) = false →
    run calculateScheduledDuration calculateCompletedDuration (gpr i) Collect w0
    = Some (tt, w1) →
    run calculateScheduledDuration calculateCompletedDuration (gpr (other i)) Collect w1
    = Some (tt, world cf) →
    serialized gpr w0 cf.

End PassModel.

Section Scheduler.

Context {Logger : Type}.
Variable calculateScheduledDuration : PipelineRun → float64 * option error.
Variable calculateCompletedDuration : PipelineRun → float64 * option error.

(** The number of calculations that fail for one item: 0, 1 or 2. *)
Definition failures (r : PipelineRun) : nat :=
  match (calculateScheduledDuration r).2 with Some _ => 1 | None => 0 end +
  match (calculateCompletedDuration r).2 with Some _ => 1 | None => 0 end.

(** Invocation [i] performs its next operation, if it has one and that
    operation can return; the configuration is unchanged otherwise. *)
Definition stepBy (gpr : tid → PipelineRunList * option error) (i : tid)
    (cf : Conf Logger) : Conf Logger :=
  match threads cf i with
  | Ret _ => cf
  | Vis o k =>
      match handle calculateScheduledDuration calculateCompletedDuration
                   (gpr i) o (world cf) with
      | Some (x, w') =>
          {| threads := λ j, if decide (j = i) then k x else threads cf j;
             world := w';
             hist := hist cf ++ [(i, o)] |}
      | None => cf
      end
  end.

(** The configuration reached when the invocations move in the given
    order. *)
Definition schedule (gpr : tid → PipelineRunList * option error)
    (order : list tid) (cf : Conf Logger) : Conf Logger :=
  foldl (λ cf i, stepBy gpr i cf) cf order.

End Scheduler.

(** The world in which a collector has just been constructed: nothing
    sent, nothing logged, nothing done. *)
Definition newWorld {Logger : Type} (lg : Logger) : World Logger :=
  {| c := (NewCollector lg).1; ch := []; logged := []; trace := [] |}.

(** ** Concrete runs used in the examples *)

(** A run with all three timestamps: created at 100, started 5 seconds
    later, completed 20 seconds after its creation. *)
Definition runA : PipelineRun :=
  {| Name := "a"; UID := "1";
     CreationTimestamp := Some 100%Q; StartTime := Some 105%Q;
     CompletionTime := Some 120%Q |}.

(** A run that has started and has not completed. *)
Definition runB : PipelineRun :=
  {| Name := "b"; UID := "2";
     CreationTimestamp := Some 200%Q; StartTime := Some 207%Q;
     CompletionTime := None |}.

(** A run that has not started. *)
Definition runC : PipelineRun :=
  {| Name := "c"; UID := "3";
     CreationTimestamp := Some 300%Q; StartTime := None;
     CompletionTime := None |}.

(** The world right after construction, with a logger that is a name. *)
Definition freshWorld : World string :=
  {| c := (NewCollector "exporter").1; ch := []; logged := []; trace := [] |}.

(** One pass of [Collect] with the specification's duration calculators. *)
Definition CollectWith (getPipelineRuns : PipelineRunList * option error)
    (w : World string) : option (unit * World string) :=
  run DurationCalculator.calculateScheduledDuration
      (DurationCalculator.calculateCompletedDuration DurationCalculator.FromCreation)
      getPipelineRuns Collect w.

(** The list of a pass over [runA] and [runB]. *)
Definition listAB : PipelineRunList := {| Items := [runA; runB] |}.

(** The rest of an invocation once its first operation, [Lock], is done. *)
Definition afterLock (p : prog unit) : prog unit :=
  match p with
  | Vis MutexLock k => k tt
  | _ => p
  end.

(** Two invocations from [freshWorld], the first of which has taken the
    mutex. *)
Definition lockedByFirst : Conf string :=
  {| threads := λ j, if decide (j = T1) then afterLock Collect else Collect;
     world := record MutexLock (setMutex true freshWorld);
     hist := [(T1, MutexLock)] |}.

(** The world a pass of [CollectWith] leaves, [w] itself when the pass
    does not return. *)
Definition worldAfter (getPipelineRuns : PipelineRunList * option error)
    (w : World string) : World string :=
  match CollectWith getPipelineRuns w with
  | Some (_, w') => w'
  | None => w
  end.

(** A later observation of [runA], completed 25 seconds after creation. *)
Definition runA' : PipelineRun :=
  {| Name := "a"; UID := "1";
     CreationTimestamp := Some 100%Q; StartTime := Some 105%Q;
     CompletionTime := Some 125%Q |}.

(** The world after one pass over [runA] and [runB]. *)
Definition worldAB : World string := worldAfter (listAB, None) freshWorld.

(** A list in which [runA] occurs twice, the second time as [runA']. *)
Definition listABA : PipelineRunList := {| Items := [runA; runB; runA'] |}.

(** The first invocation lists [runA] and [runB], the source call of the
    second fails. *)
Definition gprMixed (i : tid) : PipelineRunList * option error :=
  match i with
  | T1 => (listAB, None)
  | T2 => (listAB, Some SourceUnavailable)
  end.

(** The first invocation runs its whole pass, fourteen operations, then
    the second performs three of its five: it takes the mutex, calls the
    source and logs. *)
Definition secondHasBegun : Conf string :=
  schedule DurationCalculator.calculateScheduledDuration
    (DurationCalculator.calculateCompletedDuration DurationCalculator.FromCreation)
    gprMixed (replicate 14 T1 ++ replicate 3 T2) (initial freshWorld).

(** * Theorems *)

(** ** The duration calculators of the specification *)

(** C4: with both timestamps present and the scheduled time not before the
    creation time, [calculateScheduledDuration] returns scheduled minus
    creation, in seconds, with no error, and that value is not negative. *)
Theorem calculateScheduledDuration_elapsed (run : PipelineRun) (created scheduled : Time) :
  CreationTimestamp run = Some created →
  StartTime run = Some scheduled →
  (created <= scheduled)%Q →
  DurationCalculator.calculateScheduledDuration run = ((scheduled - created)%Q, None) ∧
  (0 <= (DurationCalculator.calculateScheduledDuration run).1)%Q.
Proof.
  intros Hc Hs Hle. unfold DurationCalculator.calculateScheduledDuration.
  rewrite Hc, Hs.
  apply Qle_bool_iff in Hle as Hb. rewrite Hb. split; [reflexivity | cbn; lra].
Qed.

(** C5: without a scheduled timestamp [calculateScheduledDuration] fails
    with [MissingTimestamp]; being a total function, it returns. *)
Theorem calculateScheduledDuration_missing (run : PipelineRun) :
  StartTime run = None →
  (DurationCalculator.calculateScheduledDuration run).2 = Some MissingTimestamp.
Proof.
  intros Hs. unfold DurationCalculator.calculateScheduledDuration.
  rewrite Hs. destruct (CreationTimestamp run); reflexivity.
Qed.

(** ** Construction and description *)

(** C10: [NewCollector] returns a collector around the given logger and a
    nil error, for every logger. *)
Theorem NewCollector_never_fails {Logger : Type} (lg : Logger) :
  (NewCollector lg).2 = None ∧ logger (NewCollector lg).1 = lg.
Proof. split; reflexivity. Qed.

(** C6: the collector has two gauge families, named
    [pipelinerun_duration_scheduled_seconds] and
    [pipelinerun_duration_completed_seconds], each with the labels
    [name] and [uid], and [Describe] forwards exactly their descriptors. *)
Theorem Describe_two_gauge_families {Logger : Type} (lg : Logger) :
  Describe (NewCollector lg).1 =
    [ {| prometheus.fqName := "pipelinerun_duration_scheduled_seconds";
         prometheus.help := "Duration in seconds for a PipelineRun to be scheduled.";
         prometheus.variableLabels := ["name"; "uid"] |};
      {| prometheus.fqName := "pipelinerun_duration_completed_seconds";
         prometheus.help := "Duration in seconds for a PipelineRun to complete.";
         prometheus.variableLabels := ["name"; "uid"] |} ].
Proof. reflexivity. Qed.

(** ** One pass, run alone *)

Section CollectorTheory.

Context {Logger : Type}.
Variable calculateScheduledDuration : PipelineRun → float64 * option error.
Variable calculateCompletedDuration : PipelineRun → float64 * option error.

Abbreviation run := (@run Logger calculateScheduledDuration calculateCompletedDuration).
Abbreviation handle := (@handle Logger calculateScheduledDuration calculateCompletedDuration).
Abbreviation loopEffect :=
  (@loopEffect Logger calculateScheduledDuration calculateCompletedDuration).
Abbreviation itemOps := (itemOps calculateScheduledDuration calculateCompletedDuration).
Abbreviation itemLogs := (itemLogs calculateScheduledDuration calculateCompletedDuration).
Abbreviation setItems := (setItems calculateScheduledDuration calculateCompletedDuration).
Abbreviation durationOf := (durationOf calculateScheduledDuration calculateCompletedDuration).
Abbreviation passOps := (passOps calculateScheduledDuration calculateCompletedDuration).

Implicit Types (w : World Logger) (gpr : PipelineRunList * option error).

Lemma run_bind {A B : Type} gpr (p : prog A) (f : A → prog B) w :
  run gpr (p ≫= f) w =
  match run gpr p w with
  | Some (a, w') => run gpr (f a) w'
  | None => None
  end.
Proof.
  revert w. induction p as [a | o k IH]; intros w; cbn.
  - reflexivity.
  - destruct (handle gpr o w) as [[x w'] |]; [apply IH | reflexivity].
Qed.

Lemma loopEffect_nil w : loopEffect [] w w.
Proof.
  unfold loopEffect; cbn. rewrite !app_nil_r. repeat split; reflexivity.
Qed.

Lemma loopEffect_cons r items w w1 w2 :
  loopEffect [r] w w1 → loopEffect items w1 w2 → loopEffect (r :: items) w w2.
Proof.
  intros (Hl1 & Hm1 & Hd1 & Hg1 & Hc1 & Hlog1 & Ht1) (Hl2 & Hm2 & Hd2 & Hg2 & Hc2 & Hlog2 & Ht2).
  unfold loopEffect. repeat split.
  - congruence.
  - congruence.
  - intros g. rewrite Hd2. apply Hd1.
  - intros g. rewrite Hg2, Hg1. reflexivity.
  - congruence.
  - rewrite Hlog2, Hlog1. cbn. rewrite app_nil_r, <- app_assoc. reflexivity.
  - rewrite Ht2, Ht1. cbn [flat_map]. rewrite app_nil_r, <- app_assoc. reflexivity.
Qed.

Lemma run_collectItem gpr r w :
  ∃ w', run gpr (collectItem r) w = Some (tt, w') ∧ loopEffect [r] w w'.
Proof.
  unfold collectItem, loopEffect, itemOps, itemLogs,
    gaugeMetrics, setItems, durationOf.
  cbn.
  destruct (calculateScheduledDuration r) as [sd [e1 |]]; cbn;
    destruct (calculateCompletedDuration r) as [cd [e2 |]]; cbn;
    (eexists; split; [reflexivity |]); cbn;
    rewrite ?app_nil_r, <- ?app_assoc;
    (repeat split; try reflexivity; intros []; reflexivity).
Qed.

Lemma run_forRange gpr items w :
  ∃ w', run gpr (forRange items collectItem) w = Some (tt, w') ∧ loopEffect items w w'.
Proof.
  revert w. induction items as [| r items IH]; intros w.
  - exists w. split; [reflexivity | apply loopEffect_nil].
  - destruct (run_collectItem gpr r w) as (w1 & Hrun1 & Heff1).
    destruct (IH w1) as (w2 & Hrun2 & Heff2).
    exists w2. split; [| eapply loopEffect_cons; eassumption].
    cbn [forRange]. rewrite run_bind, Hrun1. exact Hrun2.
Qed.

(** A pass whose listing succeeds: it returns, and this is its effect. *)
Lemma run_Collect_success (prList : PipelineRunList) w :
  mutex (c w) = false →
  ∃ w', run (prList, None) Collect w = Some (tt, w') ∧
    logger (c w') = logger (c w) ∧
    mutex (c w') = false ∧
    (∀ g, prometheus.desc (gaugeVec g (c w')) = prometheus.desc (gaugeVec g (c w))) ∧
    (∀ g, gaugeMetrics g w' = setItems g (Items prList) (gaugeMetrics g w)) ∧
    ch w' = ch w ++ prometheus.Collect (gaugeVec Scheduled (c w'))
                 ++ prometheus.Collect (gaugeVec Completed (c w')) ∧
    logged w' = logged w ++ flat_map itemLogs (Items prList) ∧
    trace w' = trace w ++ passOps (Items prList).
Proof.
  intros Hfree. unfold Collect, collect. cbn. rewrite Hfree.
  rewrite !run_bind.
  destruct (run_forRange (prList, None) (Items prList)
              (record CallGetPipelineRuns (record MutexLock (setMutex true w))))
    as (w1 & Hrun & Hl & Hm & Hd & Hg & Hc & Hlog & Ht).
  rewrite Hrun. cbn. rewrite Hm. cbn.
  eexists. split; [reflexivity |]. cbn.
  repeat split.
  - exact Hl.
  - intros g; specialize (Hd g); destruct g; exact Hd.
  - intros g; specialize (Hg g); destruct g; exact Hg.
  - rewrite Hc. cbn. rewrite <- app_assoc. reflexivity.
  - exact Hlog.
  - rewrite Ht. cbn. unfold passOps. cbn. rewrite <- !app_assoc. reflexivity.
Qed.

(** A pass whose listing fails: it returns, and this is its effect. *)
Lemma run_Collect_failure (prList : PipelineRunList) (e : error) w :
  mutex (c w) = false →
  ∃ w', run (prList, Some e) Collect w = Some (tt, w') ∧
    c w' = c w ∧
    ch w' = ch w ∧
    logged w' = logged w ++ [fetchErrorRecord e; collectErrorRecord e] ∧
    trace w' = trace w ++ [MutexLock; CallGetPipelineRuns;
                           LoggerLog (fetchErrorRecord e);
                           LoggerLog (collectErrorRecord e); MutexUnlock].
Proof.
  intros Hfree. unfold Collect, collect. cbn. rewrite Hfree. cbn.
  eexists. split; [reflexivity |]. cbn.
  repeat split.
  - destruct w as [[lg m ds dc] chn lgd tr]. cbn in *. subst m. reflexivity.
  - rewrite <- app_assoc. reflexivity.
  - rewrite <- !app_assoc. reflexivity.
Qed.

(** [collect] returns exactly the error of the source call. *)
Lemma run_collect_result gpr w :
  ∃ w', run gpr collect w = Some (gpr.2, w').
Proof.
  destruct gpr as [prList [e |]]; unfold collect; cbn.
  - eexists; reflexivity.
  - rewrite !run_bind.
    destruct (run_forRange (prList, None) (Items prList) (record CallGetPipelineRuns w))
      as (w1 & Hrun & _).
    rewrite Hrun. cbn. eexists; reflexivity.
Qed.

Lemma drop_length_app {A : Type} (l k : list A) : drop (length l) (l ++ k) = k.
Proof. rewrite drop_app_length. reflexivity. Qed.

Lemma filter_isCalculation_itemOps (items : list PipelineRun) :
  List.filter isCalculation (flat_map itemOps items) =
  flat_map (λ r, [CallCalculateScheduledDuration r; CallCalculateCompletedDuration r]) items.
Proof.
  induction items as [| r items IH]; [reflexivity |].
  cbn [flat_map]. rewrite List.filter_app, IH. f_equal.
  unfold itemOps.
  destruct (calculateScheduledDuration r).2, (calculateCompletedDuration r).2; reflexivity.
Qed.

Lemma filter_isGaugeSet_itemOps (items : list PipelineRun) :
  List.filter isGaugeSet (flat_map itemOps items) =
  flat_map (λ r, [GaugeSet Scheduled (Name r) (UID r) (durationOf Scheduled r);
                  GaugeSet Completed (Name r) (UID r) (durationOf Completed r)]) items.
Proof.
  induction items as [| r items IH]; [reflexivity |].
  cbn [flat_map]. rewrite List.filter_app, IH. f_equal.
  unfold itemOps.
  destruct (calculateScheduledDuration r).2, (calculateCompletedDuration r).2; reflexivity.
Qed.

(** Every item of the list holds a value in gauge [g] after the loop. *)
Lemma setItems_is_Some (g : gauge) (items : list PipelineRun) (m : gmap (string * string) float64) r :
  r ∈ items → is_Some (setItems g items m !! (Name r, UID r)).
Proof.
  unfold setItems. revert m.
  induction items as [| r' items IH] using rev_ind; intros m Hin.
  - inversion Hin.
  - rewrite foldl_app. cbn.
    destruct (decide ((Name r', UID r') = (Name r, UID r))) as [Heq | Hne].
    + rewrite Heq, lookup_insert_eq. eauto.
    + rewrite lookup_insert_ne by exact Hne.
      apply IH. apply elem_of_app in Hin as [Hin | Hin]; [exact Hin |].
      apply list_elem_of_singleton in Hin. subst r'. congruence.
Qed.

(** C1 (as amended): in a pass whose listing succeeds, both gauges are set
    for every item of the list, whether or not the calculation of that
    kind failed: each gauge receives, once per item and in list order, the
    value its calculator returned, a failed calculation is logged first,
    and after the pass each gauge holds a value for every item. *)
Theorem collect_sets_both_gauges_for_every_item (prList : PipelineRunList) w :
  mutex (c w) = false →
  ∃ w', run (prList, None) Collect w = Some (tt, w') ∧
    List.filter isGaugeSet (newOps w w') =
      flat_map (λ r, [GaugeSet Scheduled (Name r) (UID r) (calculateScheduledDuration r).1;
                      GaugeSet Completed (Name r) (UID r) (calculateCompletedDuration r).1])
               (Items prList) ∧
    (∀ g, gaugeMetrics g w' = setItems g (Items prList) (gaugeMetrics g w)) ∧
    (∀ g r, r ∈ Items prList → is_Some (gaugeMetrics g w' !! (Name r, UID r))) ∧
    newLogs w w' = flat_map itemLogs (Items prList).
Proof.
  intros Hfree.
  destruct (run_Collect_success prList w Hfree)
    as (w' & Hrun & _ & _ & _ & Hg & _ & Hlog & Ht).
  exists w'. split; [exact Hrun |]. repeat split.
  - unfold newOps. rewrite Ht, drop_length_app. unfold passOps.
    cbn [app List.filter isGaugeSet].
    rewrite List.filter_app. cbn [List.filter isGaugeSet]. rewrite app_nil_r.
    apply filter_isGaugeSet_itemOps.
  - exact Hg.
  - intros g r Hin. rewrite Hg. apply setItems_is_Some, Hin.
  - unfold newLogs. rewrite Hlog. apply drop_length_app.
Qed.

(** C7: in a pass whose listing succeeds, the duration calculations that
    are attempted are exactly one scheduled and one completed calculation
    per item of the list, in list order, whatever calculations fail. *)
Theorem collect_attempts_each_calculation_once (prList : PipelineRunList) w :
  mutex (c w) = false →
  ∃ w', run (prList, None) Collect w = Some (tt, w') ∧
    List.filter isCalculation (newOps w w') =
      flat_map (λ r, [CallCalculateScheduledDuration r; CallCalculateCompletedDuration r])
               (Items prList).
Proof.
  intros Hfree.
  destruct (run_Collect_success prList w Hfree)
    as (w' & Hrun & _ & _ & _ & _ & _ & _ & Ht).
  exists w'. split; [exact Hrun |].
  unfold newOps. rewrite Ht, drop_length_app. unfold passOps.
  cbn [app List.filter isCalculation].
  rewrite List.filter_app. cbn [List.filter isCalculation]. rewrite app_nil_r.
  apply filter_isCalculation_itemOps.
Qed.

(** C3: when the source call fails, the pass returns without sending any
    sample to the channel and leaves the collector, with both gauge
    vectors, as it was. *)
Theorem failed_listing_emits_nothing (prList : PipelineRunList) (e : error) w :
  mutex (c w) = false →
  ∃ w', run (prList, Some e) Collect w = Some (tt, w') ∧
    emitted w w' = [] ∧
    c w' = c w ∧
    ∀ g, gaugeVec g (c w') = gaugeVec g (c w).
Proof.
  intros Hfree.
  destruct (run_Collect_failure prList e w Hfree) as (w' & Hrun & Hc & Hch & _ & _).
  exists w'. split; [exact Hrun |]. repeat split.
  - unfold emitted. rewrite Hch. apply drop_all.
  - exact Hc.
  - intros g. rewrite Hc. reflexivity.
Qed.

(** C2 (as amended): when the source call fails in the pass that follows a
    successful pass, the failing pass sends no sample to the channel, both
    gauge vectors stay as the successful pass left them, and exactly two
    error records are logged, one by [collect] and one by [Collect]. *)
Theorem failed_listing_after_successful_pass
    (prList0 prList : PipelineRunList) (e : error) w0 :
  mutex (c w0) = false →
  ∃ w1 w2,
    run (prList0, None) Collect w0 = Some (tt, w1) ∧
    run (prList, Some e) Collect w1 = Some (tt, w2) ∧
    emitted w1 w2 = [] ∧
    (∀ g, gaugeVec g (c w2) = gaugeVec g (c w1)) ∧
    newLogs w1 w2 = [fetchErrorRecord e; collectErrorRecord e].
Proof.
  intros Hfree.
  destruct (run_Collect_success prList0 w0 Hfree) as (w1 & Hrun1 & _ & Hfree1 & _).
  destruct (run_Collect_failure prList e w1 Hfree1) as (w2 & Hrun2 & Hc & Hch & Hlog & _).
  exists w1, w2. repeat split; try assumption.
  - unfold emitted. rewrite Hch. apply drop_all.
  - intros g. rewrite Hc. reflexivity.
  - unfold newLogs. rewrite Hlog. apply drop_length_app.
Qed.

Lemma run_Collect_returns gpr w :
  mutex (c w) = false →
  ∃ w', run gpr Collect w = Some (tt, w') ∧ mutex (c w') = false.
Proof.
  intros Hfree. destruct gpr as [prList [e |]].
  - destruct (run_Collect_failure prList e w Hfree) as (w' & Hrun & Hc & _).
    exists w'. split; [exact Hrun |]. rewrite Hc. exact Hfree.
  - destruct (run_Collect_success prList w Hfree) as (w' & Hrun & _ & Hm & _).
    exists w'. split; assumption.
Qed.

(** C9: [Collect] returns to its caller, with the mutex released, for
    every outcome of the source call and of the calculations, and the
    error that [collect] hands to [Collect] is exactly the error of the
    source call: nil when the listing succeeded, whatever calculations
    failed. *)
Theorem Collect_always_returns gpr w :
  mutex (c w) = false →
  (∃ w', run gpr Collect w = Some (tt, w') ∧ mutex (c w') = false) ∧
  (∃ w', run gpr collect w = Some (gpr.2, w')).
Proof.
  intros Hfree. split; [apply run_Collect_returns, Hfree | apply run_collect_result].
Qed.

End CollectorTheory.

(** ** Two passes, run concurrently *)

Lemma lockFree_bind {A B : Type} (p : prog A) (f : A → prog B) :
  lockFree p → (∀ a, lockFree (f a)) → lockFree (p ≫= f).
Proof.
  intros Hp Hf. induction p as [a | o k IH]; cbn in *.
  - apply Hf.
  - destruct Hp as (H1 & H2 & Hk). repeat split; [assumption .. |].
    intros x. apply IH, Hk.
Qed.

Lemma holding_bind {A : Type} (p : prog A) (f : A → prog unit) :
  lockFree p → (∀ a, holding (f a)) → holding (p ≫= f).
Proof.
  intros Hp Hf. induction p as [a | o k IH]; cbn in *.
  - apply Hf.
  - destruct Hp as (H1 & H2 & Hk).
    destruct o; try congruence; intros x; apply IH, Hk.
Qed.

Lemma lockFree_call (o : op) :
  o ≠ MutexLock → o ≠ MutexUnlock → lockFree (call o).
Proof. intros H1 H2. cbn. repeat split; assumption. Qed.

Lemma lockFree_collectItem (r : PipelineRun) : lockFree (collectItem r).
Proof.
  unfold collectItem.
  apply lockFree_bind; [apply lockFree_call; discriminate |].
  intros [sd [e |]]; (apply lockFree_bind; [cbn; auto |]); intros _;
    (apply lockFree_bind; [apply lockFree_call; discriminate |]);
    intros [cd [e' |]]; cbn; repeat split; try discriminate; auto.
Qed.

Lemma lockFree_forRange (items : list PipelineRun) :
  lockFree (forRange items collectItem).
Proof.
  induction items as [| r items IH]; cbn [forRange]; [exact I |].
  apply lockFree_bind; [apply lockFree_collectItem | intros _; exact IH].
Qed.

Lemma lockFree_collect : lockFree collect.
Proof.
  unfold collect.
  apply lockFree_bind; [apply lockFree_call; discriminate |].
  intros [prList [e |]].
  - cbn. repeat split; try discriminate; auto.
  - apply lockFree_bind; [apply lockFree_forRange |].
    intros _. cbn. repeat split; try discriminate; auto.
Qed.

Lemma starting_Collect : starting Collect.
Proof.
  unfold Collect. cbn -[collect]. intros _.
  apply holding_bind; [apply lockFree_collect |].
  intros [e |]; cbn; repeat intros []; reflexivity.
Qed.

Lemma other_ne (i : tid) : other i ≠ i.
Proof. destruct i; discriminate. Qed.

Lemma other_other (i : tid) : other (other i) = i.
Proof. destruct i; reflexivity. Qed.

Lemma ne_other (i t : tid) : t ≠ i → t = other i.
Proof. destruct i, t; intros H; try reflexivity; contradiction. Qed.

Lemma idle_next (p : prog unit) (o : op) (k : res o → prog unit) :
  p = Collect → p = Vis o k → o = MutexLock ∧ ∀ x, holding (k x).
Proof.
  intros -> Hp. pose proof starting_Collect as Hs. rewrite Hp in Hs.
  destruct o; cbn in Hs; try contradiction. split; [reflexivity | exact Hs].
Qed.

Lemma holding_next (o : op) (k : res o → prog unit) :
  holding (Vis o k) →
  o ≠ MutexLock ∧
  ((o = MutexUnlock ∧ ∀ x, k x = Ret tt) ∨ (o ≠ MutexUnlock ∧ ∀ x, holding (k x))).
Proof.
  destruct o; cbn; intros H; try contradiction;
    (split; [discriminate |]);
    solve [left; split; [reflexivity | exact H]
          | right; split; [discriminate | exact H]].
Qed.

Section Serialization.

Context {Logger : Type}.
Variable calculateScheduledDuration : PipelineRun → float64 * option error.
Variable calculateCompletedDuration : PipelineRun → float64 * option error.

Abbreviation handle := (@handle Logger calculateScheduledDuration calculateCompletedDuration).
Abbreviation step := (@step Logger calculateScheduledDuration calculateCompletedDuration).
Abbreviation reachable :=
  (@reachable Logger calculateScheduledDuration calculateCompletedDuration).

Implicit Types (w : World Logger) (cf : Conf Logger) (gpr : PipelineRunList * option error).

Lemma handle_Lock gpr w x w' :
  handle gpr MutexLock w = Some (x, w') →
  mutex (c w) = false ∧ mutex (c w') = true.
Proof.
  cbn. destruct (mutex (c w)); [discriminate |].
  intros [= _ <-]. split; reflexivity.
Qed.

Lemma handle_Unlock gpr w x w' :
  handle gpr MutexUnlock w = Some (x, w') →
  mutex (c w) = true ∧ mutex (c w') = false.
Proof.
  cbn. destruct (mutex (c w)); [| discriminate].
  intros [= _ <-]. split; reflexivity.
Qed.

Lemma handle_other gpr (o : op) w x w' :
  o ≠ MutexLock → o ≠ MutexUnlock →
  handle gpr o w = Some (x, w') → mutex (c w') = mutex (c w).
Proof.
  intros H1 H2. destruct o; try congruence; cbn; intros [= _ <-]; reflexivity.
Qed.

(** Every step keeps the two passes serialized. *)
Lemma step_serial (gpr : tid → PipelineRunList * option error) cf cf' :
  step gpr cf cf' → serial cf → serial cf'.
Proof.
  intros [cf0 t o k x w' Hth Hh] Hs.
  destruct Hs as
    [ Hall Hhist Hm
    | i Hi Hj Hfa Hm
    | i Hi Hj Hfa Hlast Hm
    | i h1 h2 Hi Hj Hhist Hfa1 Hfa2 Hlast Hhead Hm
    | i h1 h2 Hi Hj Hhist Hfa1 Hfa2 Hlast Hhead Hm ].
  - (* nobody has begun: [t] takes the mutex *)
    destruct (idle_next _ o k (Hall t) Hth) as [-> Hk].
    apply handle_Lock in Hh as [_ Hm'].
    apply (serial_first _ t); cbn.
    + rewrite decide_True by reflexivity. apply Hk.
    + rewrite decide_False by apply other_ne. apply Hall.
    + rewrite Hhist. cbn. repeat constructor.
    + exact Hm'.
  - (* [i] holds the mutex *)
    destruct (decide (t = i)) as [-> | Hne].
    + rewrite Hth in Hi. apply holding_next in Hi as [Hnl [[-> Hk] | [Hnu Hk]]].
      * apply handle_Unlock in Hh as [_ Hm'].
        apply (serial_first_done _ i); cbn.
        -- rewrite decide_True by reflexivity. apply Hk.
        -- rewrite decide_False by apply other_ne. exact Hj.
        -- apply Forall_app. split; [exact Hfa | repeat constructor].
        -- apply last_snoc.
        -- exact Hm'.
      * apply (handle_other _ _ _ _ _ Hnl Hnu) in Hh as Hm'.
        apply (serial_first _ i); cbn.
        -- rewrite decide_True by reflexivity. apply Hk.
        -- rewrite decide_False by apply other_ne. exact Hj.
        -- apply Forall_app. split; [exact Hfa | repeat constructor].
        -- congruence.
    + apply ne_other in Hne as ->.
      destruct (idle_next _ o k Hj Hth) as [-> _].
      apply handle_Lock in Hh as [Hfree _]. congruence.
  - (* [i] is done, the other has not begun *)
    destruct (decide (t = i)) as [-> | Hne]; [congruence |].
    apply ne_other in Hne as ->.
    destruct (idle_next _ o k Hj Hth) as [-> Hk].
    apply handle_Lock in Hh as [_ Hm'].
    apply (serial_second _ i (hist cf0) [(other i, MutexLock)]); cbn.
    + rewrite decide_False by (symmetry; apply other_ne). exact Hi.
    + rewrite decide_True by reflexivity. apply Hk.
    + reflexivity.
    + exact Hfa.
    + repeat constructor.
    + exact Hlast.
    + reflexivity.
    + exact Hm'.
  - (* [i] is done, the other holds the mutex *)
    destruct (decide (t = i)) as [-> | Hne]; [congruence |].
    apply ne_other in Hne as ->.
    rewrite Hth in Hj. apply holding_next in Hj as [Hnl [[-> Hk] | [Hnu Hk]]].
    + apply handle_Unlock in Hh as [_ Hm'].
      apply (serial_both_done _ i h1 (h2 ++ [(other i, MutexUnlock)])); cbn.
      * rewrite decide_False by (symmetry; apply other_ne). exact Hi.
      * rewrite decide_True by reflexivity. apply Hk.
      * rewrite Hhist, app_assoc. reflexivity.
      * exact Hfa1.
      * apply Forall_app. split; [exact Hfa2 | repeat constructor].
      * exact Hlast.
      * destruct h2; [discriminate | exact Hhead].
      * exact Hm'.
    + apply (handle_other _ _ _ _ _ Hnl Hnu) in Hh as Hm'.
      apply (serial_second _ i h1 (h2 ++ [(other i, o)])); cbn.
      * rewrite decide_False by (symmetry; apply other_ne). exact Hi.
      * rewrite decide_True by reflexivity. apply Hk.
      * rewrite Hhist, app_assoc. reflexivity.
      * exact Hfa1.
      * apply Forall_app. split; [exact Hfa2 | repeat constructor].
      * exact Hlast.
      * destruct h2; [discriminate | exact Hhead].
      * congruence.
  - (* both are done: no step *)
    destruct (decide (t = i)) as [-> | Hne]; [congruence |].
    apply ne_other in Hne as ->. congruence.
Qed.

Lemma reachable_serial (gpr : tid → PipelineRunList * option error) w cf :
  mutex (c w) = false → reachable gpr w cf → serial cf.
Proof.
  intros Hfree Hreach.
  refine (rtc_ind_r (λ cf, serial cf) (initial w) _ _ cf Hreach).
  - apply serial_none; cbn; [reflexivity | reflexivity | exact Hfree].
  - intros cf1 cf2 _ Hstep IH. exact (step_serial gpr cf1 cf2 Hstep IH).
Qed.

(** An invocation that can run alone from the current world can take all
    its steps in a row. *)
Lemma run_steps (gpr : tid → PipelineRunList * option error) (i : tid)
    (p : prog unit) cf w' :
  threads cf i = p →
  run calculateScheduledDuration calculateCompletedDuration (gpr i) p (world cf)
    = Some (tt, w') →
  ∃ cf', rtc (step gpr) cf cf' ∧
    threads cf' i = Ret tt ∧
    threads cf' (other i) = threads cf (other i) ∧
    world cf' = w'.
Proof.
  revert cf. induction p as [[] | o k IH]; intros cf Hth Hrun; cbn in Hrun.
  - injection Hrun as <-. exists cf. repeat split; [apply rtc_refl | exact Hth].
  - destruct (handle (gpr i) o (world cf)) as [[x w1] |] eqn:Hh; [| discriminate].
    pose proof (step_op _ _ gpr cf i o k x w1 Hth Hh) as Hstep.
    set (cf1 := {| threads := λ j, if decide (j = i) then k x else threads cf j;
                   world := w1; hist := hist cf ++ [(i, o)] |}) in *.
    assert (Hth1 : threads cf1 i = k x)
      by (subst cf1; cbn [threads]; case_decide; [reflexivity | congruence]).
    destruct (IH x cf1 Hth1 Hrun) as (cf' & Hsteps & Hdone & Hother & Hw).
    exists cf'. repeat split; [| exact Hdone | | exact Hw].
    + eapply rtc_l; eassumption.
    + rewrite Hother. subst cf1. cbn [threads]. case_decide as Heq; [| reflexivity].
      destruct (other_ne i Heq).
Qed.

(** The passes do run: from a free mutex, both invocations can complete. *)
Lemma both_passes_complete (gpr : tid → PipelineRunList * option error) w :
  mutex (c w) = false →
  ∃ cf, reachable gpr w cf ∧ ∀ j, threads cf j = Ret tt.
Proof.
  intros Hfree.
  destruct (run_Collect_returns calculateScheduledDuration calculateCompletedDuration
              (gpr T1) w Hfree) as (w1 & Hrun1 & Hfree1).
  destruct (run_steps gpr T1 Collect (initial w) w1 eq_refl Hrun1)
    as (cf1 & Hsteps1 & Hdone1 & Hother1 & Hw1).
  destruct (run_Collect_returns calculateScheduledDuration calculateCompletedDuration
              (gpr T2) w1 Hfree1) as (w2 & Hrun2 & _).
  rewrite <- Hw1 in Hrun2.
  destruct (run_steps gpr T2 Collect cf1 w2 Hother1 Hrun2)
    as (cf2 & Hsteps2 & Hdone2 & Hother2 & _).
  exists cf2. split.
  - unfold reachable. etrans; eassumption.
  - intros []; [rewrite <- Hdone1; exact Hother2 | exact Hdone2].
Qed.

(** C8: two concurrent invocations of [Collect] never interleave.  In
    every configuration they can reach from a free mutex, the operations
    performed so far are those of one invocation followed by those of the
    other; and once the second has done anything, the first has finished,
    its last operation was the release of the mutex, and the first
    operation of the second is its acquisition. *)
Theorem Collect_passes_do_not_interleave
    (gpr : tid → PipelineRunList * option error) w cf :
  mutex (c w) = false →
  reachable gpr w cf →
  ∃ i h1 h2,
    hist cf = h1 ++ h2 ∧
    Forall (byThread i) h1 ∧
    Forall (byThread (other i)) h2 ∧
    (h2 ≠ [] →
       threads cf i = Ret tt ∧
       last h1 = Some (i, MutexUnlock) ∧
       head h2 = Some (other i, MutexLock)).
Proof.
  intros Hfree Hreach.
  destruct (reachable_serial gpr w cf Hfree Hreach) as
    [ Hall Hhist Hm
    | i Hi Hj Hfa Hm
    | i Hi Hj Hfa Hlast Hm
    | i h1 h2 Hi Hj Hhist Hfa1 Hfa2 Hlast Hhead Hm
    | i h1 h2 Hi Hj Hhist Hfa1 Hfa2 Hlast Hhead Hm ].
  - exists T1, [], []. rewrite Hhist. repeat split; try constructor; congruence.
  - exists i, (hist cf), []. rewrite app_nil_r.
    repeat split; try constructor; congruence.
  - exists i, (hist cf), []. rewrite app_nil_r.
    repeat split; try constructor; congruence.
  - exists i, h1, h2. repeat split; assumption.
  - exists i, h1, h2. repeat split; assumption.
Qed.

Lemma stepBy_steps (gpr : tid → PipelineRunList * option error) (i : tid) cf :
  rtc (step gpr) cf
    (stepBy calculateScheduledDuration calculateCompletedDuration gpr i cf).
Proof.
  unfold stepBy.
  destruct (threads cf i) as [a | o k] eqn:Hth; [apply rtc_refl |].
  destruct (handle (gpr i) o (world cf)) as [[x w'] |] eqn:Hh; [| apply rtc_refl].
  apply rtc_once. exact (step_op _ _ gpr cf i o k x w' Hth Hh).
Qed.

Lemma schedule_reachable (gpr : tid → PipelineRunList * option error)
    (order : list tid) w cf :
  reachable gpr w cf →
  reachable gpr w
    (schedule calculateScheduledDuration calculateCompletedDuration gpr order cf).
Proof.
  revert cf. induction order as [| i order IH]; intros cf Hreach; [exact Hreach |].
  cbn [schedule foldl]. apply IH. unfold reachable in *.
  etrans; [exact Hreach | apply stepBy_steps].
Qed.

End Serialization.

(** ** The theorems at concrete runs *)

Abbreviation specScheduled := DurationCalculator.calculateScheduledDuration.
Abbreviation specCompleted :=
  (DurationCalculator.calculateCompletedDuration DurationCalculator.FromCreation).

Lemma calculateScheduledDuration_elapsed_witness :
  CreationTimestamp runA = Some 100%Q ∧
  StartTime runA = Some 105%Q ∧
  (100 <= 105)%Q ∧
  DurationCalculator.calculateScheduledDuration runA = ((105 - 100)%Q, None) ∧
  (0 <= (DurationCalculator.calculateScheduledDuration runA).1)%Q.
Proof.
  assert (Hle : (100 <= 105)%Q) by (apply Qle_bool_iff; reflexivity).
  split; [reflexivity |]. split; [reflexivity |]. split; [exact Hle |].
  apply (calculateScheduledDuration_elapsed runA 100%Q 105%Q eq_refl eq_refl Hle).
Defined.

Lemma calculateScheduledDuration_missing_witness :
  StartTime runC = None ∧
  (DurationCalculator.calculateScheduledDuration runC).2 = Some MissingTimestamp.
Proof.
  split; [reflexivity |].
  apply (calculateScheduledDuration_missing runC). reflexivity.
Defined.

Lemma collect_sets_both_gauges_for_every_item_witness :
  mutex (c freshWorld) = false ∧
  ∃ w', CollectWith (listAB, None) freshWorld = Some (tt, w') ∧
    List.filter isGaugeSet (newOps freshWorld w') =
      flat_map (λ r, [GaugeSet Scheduled (Name r) (UID r) (specScheduled r).1;
                      GaugeSet Completed (Name r) (UID r) (specCompleted r).1])
               (Items listAB) ∧
    (∀ g, gaugeMetrics g w' =
          setItems specScheduled specCompleted g (Items listAB) (gaugeMetrics g freshWorld)) ∧
    (∀ g r, r ∈ Items listAB → is_Some (gaugeMetrics g w' !! (Name r, UID r))) ∧
    newLogs freshWorld w' = flat_map (itemLogs specScheduled specCompleted) (Items listAB).
Proof.
  split; [reflexivity |].
  apply (collect_sets_both_gauges_for_every_item specScheduled specCompleted listAB freshWorld).
  reflexivity.
Defined.

Lemma collect_attempts_each_calculation_once_witness :
  mutex (c freshWorld) = false ∧
  ∃ w', CollectWith (listAB, None) freshWorld = Some (tt, w') ∧
    List.filter isCalculation (newOps freshWorld w') =
      [CallCalculateScheduledDuration runA; CallCalculateCompletedDuration runA;
       CallCalculateScheduledDuration runB; CallCalculateCompletedDuration runB].
Proof.
  split; [reflexivity |].
  apply (collect_attempts_each_calculation_once specScheduled specCompleted listAB freshWorld).
  reflexivity.
Defined.

Lemma failed_listing_emits_nothing_witness :
  mutex (c worldAB) = false ∧
  ∃ w', CollectWith (listAB, Some SourceUnavailable) worldAB = Some (tt, w') ∧
    emitted worldAB w' = [] ∧
    c w' = c worldAB ∧
    ∀ g, gaugeVec g (c w') = gaugeVec g (c worldAB).
Proof.
  assert (Hfree : mutex (c worldAB) = false) by (vm_compute; reflexivity).
  split; [exact Hfree |].
  exact (failed_listing_emits_nothing specScheduled specCompleted
           listAB SourceUnavailable worldAB Hfree).
Defined.

Lemma failed_listing_after_successful_pass_witness :
  mutex (c freshWorld) = false ∧
  ∃ w1 w2,
    CollectWith (listAB, None) freshWorld = Some (tt, w1) ∧
    CollectWith ({| Items := [] |}, Some SourceUnavailable) w1 = Some (tt, w2) ∧
    emitted w1 w2 = [] ∧
    (∀ g, gaugeVec g (c w2) = gaugeVec g (c w1)) ∧
    newLogs w1 w2 = [fetchErrorRecord SourceUnavailable; collectErrorRecord SourceUnavailable].
Proof.
  split; [reflexivity |].
  apply (failed_listing_after_successful_pass specScheduled specCompleted
           listAB {| Items := [] |} SourceUnavailable freshWorld).
  reflexivity.
Defined.

Lemma Collect_always_returns_witness :
  mutex (c freshWorld) = false ∧
  (∃ w', CollectWith (listAB, None) freshWorld = Some (tt, w') ∧ mutex (c w') = false) ∧
  (∃ w', run specScheduled specCompleted (listAB, None) collect freshWorld = Some (None, w')).
Proof.
  split; [reflexivity |].
  apply (Collect_always_returns specScheduled specCompleted (listAB, None) freshWorld).
  reflexivity.
Defined.

Lemma Collect_passes_do_not_interleave_witness :
  mutex (c freshWorld) = false ∧
  reachable specScheduled specCompleted gprMixed freshWorld secondHasBegun ∧
  (hist secondHasBegun).*1 = replicate 14 T1 ++ replicate 3 T2 ∧
  ∃ i h1 h2,
    hist secondHasBegun = h1 ++ h2 ∧
    Forall (byThread i) h1 ∧
    Forall (byThread (other i)) h2 ∧
    (h2 ≠ [] →
       threads secondHasBegun i = Ret tt ∧
       last h1 = Some (i, MutexUnlock) ∧
       head h2 = Some (other i, MutexLock)).
Proof.
  assert (Hreach : reachable specScheduled specCompleted gprMixed freshWorld secondHasBegun).
  { apply schedule_reachable. apply rtc_refl. }
  split; [reflexivity |]. split; [exact Hreach |].
  split; [vm_compute; reflexivity |].
  exact (Collect_passes_do_not_interleave specScheduled specCompleted
           gprMixed freshWorld secondHasBegun eq_refl Hreach).
Defined.

(** ** Where the specification and the code part *)

(** C1, as stated, fails on [runA; runB]: the completed calculation of
    [runB] fails, and the pass sets the completed gauge for [runB] all the
    same, to the value returned beside the error. *)
Lemma completed_gauge_set_despite_failure :
  (specCompleted runB).2 = Some MissingTimestamp ∧
  ∃ w', CollectWith (listAB, None) freshWorld = Some (tt, w') ∧
    In (GaugeSet Completed "b" "2" 0%Q) (newOps freshWorld w') ∧
    gaugeMetrics Completed w' !! ("b", "2") = Some 0%Q ∧
    gaugeMetrics Completed w' !! ("b", "2") ≠ None.
Proof.
  split; [reflexivity |].
  exists (worldAfter (listAB, None) freshWorld).
  split; [vm_compute; reflexivity |]. split; [| split].
  - vm_compute. tauto.
  - vm_compute. reflexivity.
  - vm_compute. discriminate.
Qed.

(** C2, as stated, fails after a successful pass over [runA]: the failing
    pass sends nothing, where the successful pass sent two samples, and
    it logs two error records. *)
Lemma failed_listing_snapshot_differs :
  ∃ w1 w2,
    CollectWith ({| Items := [runA] |}, None) freshWorld = Some (tt, w1) ∧
    CollectWith ({| Items := [] |}, Some SourceUnavailable) w1 = Some (tt, w2) ∧
    length (emitted freshWorld w1) = 2 ∧
    emitted w1 w2 = [] ∧
    emitted w1 w2 ≠ emitted freshWorld w1 ∧
    length (newLogs w1 w2) = 2 ∧
    length (newLogs w1 w2) ≠ 1.
Proof.
  exists (worldAfter ({| Items := [runA] |}, None) freshWorld).
  exists (worldAfter ({| Items := [] |}, Some SourceUnavailable)
            (worldAfter ({| Items := [runA] |}, None) freshWorld)).
  split; [vm_compute; reflexivity |].
  split; [vm_compute; reflexivity |].
  split; [vm_compute; reflexivity |].
  split; [vm_compute; reflexivity |].
  split; [vm_compute; discriminate |].
  split; [vm_compute; reflexivity |].
  vm_compute; discriminate.
Qed.

(** * Further properties of the collector *)

Section PassTheory.

Context {Logger : Type}.
Variable calculateScheduledDuration : PipelineRun → float64 * option error.
Variable calculateCompletedDuration : PipelineRun → float64 * option error.

Abbreviation run := (@run Logger calculateScheduledDuration calculateCompletedDuration).
Abbreviation itemOps := (itemOps calculateScheduledDuration calculateCompletedDuration).
Abbreviation itemLogs := (itemLogs calculateScheduledDuration calculateCompletedDuration).
Abbreviation setItems := (setItems calculateScheduledDuration calculateCompletedDuration).
Abbreviation durationOf := (durationOf calculateScheduledDuration calculateCompletedDuration).
Abbreviation lastValue := (lastValue calculateScheduledDuration calculateCompletedDuration).
Abbreviation passOps := (passOps calculateScheduledDuration calculateCompletedDuration).
Abbreviation Collect_success :=
  (@run_Collect_success Logger calculateScheduledDuration calculateCompletedDuration).
Abbreviation Collect_failure :=
  (@run_Collect_failure Logger calculateScheduledDuration calculateCompletedDuration).

Implicit Types (w : World Logger) (gpr : PipelineRunList * option error)
  (m : gmap (string * string) float64) (k : string * string)
  (g : gauge) (items : list PipelineRun).

(** *** The gauge values after the loop *)

Lemma setItems_snoc g items r m :
  setItems g (items ++ [r]) m = <[labelTuple r := durationOf g r]> (setItems g items m).
Proof. unfold setItems. rewrite foldl_app. reflexivity. Qed.

Lemma setItems_app g items1 items2 m :
  setItems g (items1 ++ items2) m = setItems g items2 (setItems g items1 m).
Proof. unfold setItems. apply foldl_app. Qed.

Lemma lastValue_snoc g k items r :
  lastValue g k (items ++ [r]) =
  if decide (labelTuple r = k) then Some (durationOf g r) else lastValue g k items.
Proof. unfold lastValue. rewrite foldl_app. reflexivity. Qed.

Lemma setItems_lookup g items m k :
  setItems g items m !! k =
  match lastValue g k items with
  | Some v => Some v
  | None => m !! k
  end.
Proof.
  induction items as [| r items IH] using rev_ind; [reflexivity |].
  rewrite setItems_snoc, lastValue_snoc.
  case_decide as Hk.
  - rewrite <- Hk. apply lookup_insert_eq.
  - rewrite lookup_insert_ne by exact Hk. exact IH.
Qed.

Lemma lastValue_None g k items :
  (∀ r, r ∈ items → labelTuple r ≠ k) → lastValue g k items = None.
Proof.
  induction items as [| r items IH] using rev_ind; intros Hall; [reflexivity |].
  rewrite lastValue_snoc. rewrite decide_False.
  - apply IH. intros r' Hin. apply Hall, elem_of_app. left. exact Hin.
  - apply Hall, elem_of_app. right. apply list_elem_of_singleton. reflexivity.
Qed.

Lemma lastValue_last g items1 r items2 :
  (∀ r', r' ∈ items2 → labelTuple r' ≠ labelTuple r) →
  lastValue g (labelTuple r) (items1 ++ r :: items2) = Some (durationOf g r).
Proof.
  induction items2 as [| r2 items2 IH] using rev_ind; intros Hall.
  - rewrite lastValue_snoc. rewrite decide_True by reflexivity. reflexivity.
  - change (items1 ++ r :: items2 ++ [r2]) with (items1 ++ (r :: items2) ++ [r2]).
    rewrite app_assoc, lastValue_snoc. rewrite decide_False.
    + apply IH. intros r' Hin. apply Hall, elem_of_app. left. exact Hin.
    + apply Hall, elem_of_app. right. apply list_elem_of_singleton. reflexivity.
Qed.

Lemma setItems_idempotent g items m :
  setItems g items (setItems g items m) = setItems g items m.
Proof.
  apply map_eq. intros k. rewrite (setItems_lookup g items (setItems g items m)).
  destruct (lastValue g k items) as [v |] eqn:Hlast; [| reflexivity].
  rewrite setItems_lookup, Hlast. reflexivity.
Qed.

Lemma setItems_dom g items m :
  dom (setItems g items m) = dom m ∪ list_to_set (labelTuple <$> items).
Proof.
  induction items as [| r items IH] using rev_ind.
  - cbn. rewrite (right_id_L ∅ (∪)). reflexivity.
  - rewrite setItems_snoc, dom_insert_L, IH, fmap_app, list_to_set_app_L. cbn.
    rewrite (right_id_L ∅ (∪)), (comm_L (∪) {[labelTuple r]}), (assoc_L (∪)).
    reflexivity.
Qed.

Lemma gaugeVec_eq (v1 v2 : prometheus.GaugeVec) :
  prometheus.desc v1 = prometheus.desc v2 →
  prometheus.metrics v1 = prometheus.metrics v2 →
  v1 = v2.
Proof. destruct v1, v2. cbn. intros -> ->. reflexivity. Qed.

Lemma elem_of_Collect (v : prometheus.GaugeVec) k (x : float64) :
  prometheus.metrics v !! k = Some x →
  {| prometheus.metricDesc := prometheus.desc v;
     prometheus.labelValues := k;
     prometheus.value := x |} ∈ prometheus.Collect v.
Proof.
  intros Hk. unfold prometheus.Collect. apply list_elem_of_fmap.
  exists (k, x). split; [reflexivity |]. apply elem_of_map_to_list. exact Hk.
Qed.

Lemma Collect_desc (v : prometheus.GaugeVec) (s : prometheus.Metric) :
  s ∈ prometheus.Collect v → prometheus.metricDesc s = prometheus.desc v.
Proof.
  unfold prometheus.Collect. intros Hin.
  apply list_elem_of_fmap in Hin as (kv & -> & _). reflexivity.
Qed.

Lemma length_Collect (v : prometheus.GaugeVec) :
  length (prometheus.Collect v) = size (prometheus.metrics v).
Proof.
  unfold prometheus.Collect. rewrite length_fmap. apply length_map_to_list.
Qed.

Lemma itemOps_no_mutex r : Forall (λ o, isMutexOp o = false) (itemOps r).
Proof.
  unfold itemOps.
  destruct (calculateScheduledDuration r).2, (calculateCompletedDuration r).2;
    repeat constructor.
Qed.

Lemma flat_map_itemOps_no_mutex items :
  Forall (λ o, isMutexOp o = false) (flat_map itemOps items).
Proof.
  induction items as [| r items IH]; [constructor |].
  cbn [flat_map]. apply Forall_app. split; [apply itemOps_no_mutex | exact IH].
Qed.

(** *** Properties of one pass and of successive passes *)

(** X1: a pass whose listing succeeds never removes a label tuple from a
    gauge, and a label tuple of no item of the list keeps its value. *)
Theorem pass_keeps_other_label_tuples (prList : PipelineRunList) w :
  mutex (c w) = false →
  ∃ w', run (prList, None) Collect w = Some (tt, w') ∧
    (∀ g k, (∀ r, r ∈ Items prList → labelTuple r ≠ k) →
            gaugeMetrics g w' !! k = gaugeMetrics g w !! k) ∧
    (∀ g k, is_Some (gaugeMetrics g w !! k) → is_Some (gaugeMetrics g w' !! k)).
Proof.
  intros Hfree.
  destruct (Collect_success prList w Hfree) as (w' & Hrun & _ & _ & _ & Hg & _).
  exists w'. split; [exact Hrun |]. split.
  - intros g k Hnone. rewrite Hg, setItems_lookup, lastValue_None by exact Hnone.
    reflexivity.
  - intros g k Hsome. rewrite Hg, setItems_lookup.
    destruct (lastValue g k (Items prList)); [eauto | exact Hsome].
Qed.

(** X2: when several items of the list share a label tuple, each gauge
    holds after the pass the value computed for the last of them. *)
Theorem pass_last_item_wins (prList : PipelineRunList) w items1 r items2 :
  mutex (c w) = false →
  Items prList = items1 ++ r :: items2 →
  (∀ r', r' ∈ items2 → labelTuple r' ≠ labelTuple r) →
  ∃ w', run (prList, None) Collect w = Some (tt, w') ∧
    ∀ g, gaugeMetrics g w' !! labelTuple r = Some (durationOf g r).
Proof.
  intros Hfree Hitems Hlast.
  destruct (Collect_success prList w Hfree) as (w' & Hrun & _ & _ & _ & Hg & _).
  exists w'. split; [exact Hrun |].
  intros g. rewrite Hg, setItems_lookup, Hitems, lastValue_last by exact Hlast.
  reflexivity.
Qed.

(** X3: a pass whose listing succeeds sends the contents of both gauges as
    they are after the updates of the pass, the scheduled gauge first:
    every held value, of this pass or of an earlier one, is sent as a
    sample, and the number of samples is the number of held values. *)
Theorem pass_emits_gauge_contents (prList : PipelineRunList) w :
  mutex (c w) = false →
  ∃ w', run (prList, None) Collect w = Some (tt, w') ∧
    emitted w w' = prometheus.Collect (durationScheduled (c w'))
                   ++ prometheus.Collect (durationCompleted (c w')) ∧
    (∀ g k (x : float64), gaugeMetrics g w' !! k = Some x →
       {| prometheus.metricDesc := prometheus.desc (gaugeVec g (c w));
          prometheus.labelValues := k;
          prometheus.value := x |} ∈ emitted w w') ∧
    length (emitted w w') =
      size (gaugeMetrics Scheduled w') + size (gaugeMetrics Completed w').
Proof.
  intros Hfree.
  destruct (Collect_success prList w Hfree) as (w' & Hrun & _ & _ & Hd & _ & Hch & _).
  assert (Hem : emitted w w' = prometheus.Collect (durationScheduled (c w'))
                               ++ prometheus.Collect (durationCompleted (c w'))).
  { unfold emitted. rewrite Hch. apply drop_length_app. }
  exists w'. split; [exact Hrun |]. split; [exact Hem |]. split.
  - intros g k x Hk. rewrite Hem, <- Hd. apply elem_of_app.
    destruct g; [left | right]; apply elem_of_Collect; exact Hk.
  - rewrite Hem, length_app, !length_Collect. reflexivity.
Qed.

(** X4: two successive passes whose listings succeed leave both gauges as
    one pass over the two lists, one after the other, does, and the
    second pass sends the samples that this one pass sends. *)
Theorem successive_passes_compose (prList1 prList2 : PipelineRunList) w :
  mutex (c w) = false →
  ∃ w1 w2 w12,
    run (prList1, None) Collect w = Some (tt, w1) ∧
    run (prList2, None) Collect w1 = Some (tt, w2) ∧
    run ({| Items := Items prList1 ++ Items prList2 |}, None) Collect w = Some (tt, w12) ∧
    (∀ g, gaugeVec g (c w2) = gaugeVec g (c w12)) ∧
    emitted w1 w2 = emitted w w12.
Proof.
  intros Hfree.
  destruct (Collect_success prList1 w Hfree)
    as (w1 & Hrun1 & _ & Hfree1 & Hd1 & Hg1 & _).
  destruct (Collect_success prList2 w1 Hfree1)
    as (w2 & Hrun2 & _ & _ & Hd2 & Hg2 & Hch2 & _).
  destruct (Collect_success {| Items := Items prList1 ++ Items prList2 |} w Hfree)
    as (w12 & Hrun12 & _ & _ & Hd12 & Hg12 & Hch12 & _).
  assert (Hvec : ∀ g, gaugeVec g (c w2) = gaugeVec g (c w12)).
  { intros g. apply gaugeVec_eq.
    - rewrite Hd2, Hd1, Hd12. reflexivity.
    - specialize (Hg2 g). specialize (Hg1 g). specialize (Hg12 g).
      unfold gaugeMetrics in *. rewrite Hg2, Hg1, Hg12. cbn [Items].
      symmetry. apply setItems_app. }
  exists w1, w2, w12. repeat split; try assumption.
  unfold emitted. rewrite Hch2, Hch12, !drop_length_app.
  rewrite (Hvec Scheduled), (Hvec Completed). reflexivity.
Qed.

(** X5: a second pass over the same list, with the same calculated
    values, changes neither gauge and sends the samples of the first. *)
Theorem repeated_pass_is_idempotent (prList : PipelineRunList) w :
  mutex (c w) = false →
  ∃ w1 w2,
    run (prList, None) Collect w = Some (tt, w1) ∧
    run (prList, None) Collect w1 = Some (tt, w2) ∧
    (∀ g, gaugeVec g (c w2) = gaugeVec g (c w1)) ∧
    emitted w1 w2 = emitted w w1.
Proof.
  intros Hfree.
  destruct (Collect_success prList w Hfree)
    as (w1 & Hrun1 & _ & Hfree1 & _ & Hg1 & Hch1 & _).
  destruct (Collect_success prList w1 Hfree1)
    as (w2 & Hrun2 & _ & _ & Hd2 & Hg2 & Hch2 & _).
  assert (Hvec : ∀ g, gaugeVec g (c w2) = gaugeVec g (c w1)).
  { intros g. apply gaugeVec_eq; [apply Hd2 |].
    specialize (Hg2 g). specialize (Hg1 g).
    unfold gaugeMetrics in *. rewrite Hg2, Hg1. apply setItems_idempotent. }
  exists w1, w2. repeat split; try assumption.
  unfold emitted. rewrite Hch2, Hch1, !drop_length_app.
  rewrite (Hvec Scheduled), (Hvec Completed). reflexivity.
Qed.

(** X6: when the source call fails, the pass performs five operations and
    no other: it takes the mutex, calls the source, logs twice and
    releases the mutex.  No calculator is called, no gauge is set or
    collected. *)
Theorem failed_listing_operations (prList : PipelineRunList) (e : error) w :
  mutex (c w) = false →
  ∃ w', run (prList, Some e) Collect w = Some (tt, w') ∧
    newOps w w' = [MutexLock; CallGetPipelineRuns;
                   LoggerLog (fetchErrorRecord e);
                   LoggerLog (collectErrorRecord e); MutexUnlock].
Proof.
  intros Hfree.
  destruct (Collect_failure prList e w Hfree) as (w' & Hrun & _ & _ & _ & Ht).
  exists w'. split; [exact Hrun |]. unfold newOps. rewrite Ht. apply drop_length_app.
Qed.

Lemma length_itemLogs r :
  length (itemLogs r)
  = failures calculateScheduledDuration calculateCompletedDuration r.
Proof.
  unfold itemLogs, failures.
  destruct (calculateScheduledDuration r).2, (calculateCompletedDuration r).2;
    reflexivity.
Qed.

Lemma length_flat_map_itemLogs items :
  length (flat_map itemLogs items)
  = sum_list (failures calculateScheduledDuration calculateCompletedDuration <$> items).
Proof.
  induction items as [| r items IH]; [reflexivity |].
  cbn [flat_map fmap list_fmap sum_list]. rewrite length_app, length_itemLogs, IH.
  reflexivity.
Qed.

(** X7: a pass whose listing succeeds logs one record per failed
    calculation and no other: the records of the pass are, in list order
    and for each item, the scheduled-time record if its scheduled
    calculation failed, then the completion-time record if its completed
    calculation failed, each with the error of that calculation.  Their
    number is the number of failed calculations, and a record is logged
    only for a failed calculation of an item of the list. *)
Theorem pass_logs_exactly_failures (prList : PipelineRunList) w :
  mutex (c w) = false →
  ∃ w', run (prList, None) Collect w = Some (tt, w') ∧
    newLogs w w' =
      flat_map (λ r,
                  match (calculateScheduledDuration r).2 with
                  | Some e => [scheduledErrorRecord e]
                  | None => []
                  end ++
                  match (calculateCompletedDuration r).2 with
                  | Some e => [completedErrorRecord e]
                  | None => []
                  end)
               (Items prList) ∧
    length (newLogs w w')
      = sum_list (failures calculateScheduledDuration calculateCompletedDuration
                    <$> Items prList) ∧
    ∀ rec, rec ∈ newLogs w w' ↔
      ∃ r e, r ∈ Items prList ∧
        (((calculateScheduledDuration r).2 = Some e ∧ rec = scheduledErrorRecord e) ∨
         ((calculateCompletedDuration r).2 = Some e ∧ rec = completedErrorRecord e)).
Proof.
  intros Hfree.
  destruct (Collect_success prList w Hfree) as (w' & Hrun & _ & _ & _ & _ & _ & Hlog & _).
  assert (Hnew : newLogs w w' = flat_map itemLogs (Items prList)).
  { unfold newLogs. rewrite Hlog. apply drop_length_app. }
  exists w'. split; [exact Hrun |]. split; [exact Hnew |].
  split; [rewrite Hnew; apply length_flat_map_itemLogs |].
  intros rec. rewrite Hnew.
  rewrite list_elem_of_In, in_flat_map. split.
  - intros (r & Hin & Hrec). apply list_elem_of_In in Hin.
    unfold itemLogs in Hrec. apply in_app_or in Hrec as [Hrec | Hrec].
    + destruct (calculateScheduledDuration r).2 as [e |] eqn:He; [| destruct Hrec].
      destruct Hrec as [<- | []]. exists r, e. split; [exact Hin |]. left. split; [exact He | reflexivity].
    + destruct (calculateCompletedDuration r).2 as [e |] eqn:He; [| destruct Hrec].
      destruct Hrec as [<- | []]. exists r, e. split; [exact Hin |]. right. split; [exact He | reflexivity].
  - intros (r & e & Hin & Hcase). exists r. split; [apply list_elem_of_In; exact Hin |].
    unfold itemLogs. apply in_or_app.
    destruct Hcase as [[He ->] | [He ->]]; [left | right]; rewrite He; left; reflexivity.
Qed.

(** X8: every pass, whatever the source call returns, leaves the logger
    and the two descriptors of the collector as they are, and every
    sample it sends carries one of the descriptors that [Describe]
    forwards. *)
Theorem pass_preserves_descriptors gpr w :
  mutex (c w) = false →
  ∃ w', run gpr Collect w = Some (tt, w') ∧
    Describe (c w') = Describe (c w) ∧
    logger (c w') = logger (c w) ∧
    ∀ s, s ∈ emitted w w' → prometheus.metricDesc s ∈ Describe (c w).
Proof.
  intros Hfree. destruct gpr as [prList [e |]].
  - destruct (Collect_failure prList e w Hfree) as (w' & Hrun & Hc & Hch & _).
    exists w'. split; [exact Hrun |]. rewrite Hc. repeat split.
    intros s. unfold emitted. rewrite Hch, drop_all. intros Hin. inversion Hin.
  - destruct (Collect_success prList w Hfree) as (w' & Hrun & Hl & _ & Hd & _ & Hch & _).
    exists w'. split; [exact Hrun |].
    pose proof (Hd Scheduled) as HdS. pose proof (Hd Completed) as HdC. cbn in HdS, HdC.
    unfold Describe, prometheus.Describe. rewrite HdS, HdC.
    split; [reflexivity |]. split; [exact Hl |].
    intros s. unfold emitted. rewrite Hch, drop_length_app. cbn [gaugeVec].
    intros Hin. apply elem_of_app in Hin as [Hin | Hin]; apply Collect_desc in Hin;
      rewrite Hin, ?HdS, ?HdC; cbn; [left | right; left].
Qed.

(** X9: both gauges are always set together, so a pass keeps them on the
    same set of label tuples: if the two gauges hold values for the same
    label tuples before a pass, they do so after it. *)
Theorem pass_keeps_gauges_aligned gpr w :
  mutex (c w) = false →
  dom (gaugeMetrics Scheduled w) = dom (gaugeMetrics Completed w) →
  ∃ w', run gpr Collect w = Some (tt, w') ∧
    dom (gaugeMetrics Scheduled w') = dom (gaugeMetrics Completed w').
Proof.
  intros Hfree Hdom. destruct gpr as [prList [e |]].
  - destruct (Collect_failure prList e w Hfree) as (w' & Hrun & Hc & _).
    exists w'. split; [exact Hrun |]. unfold gaugeMetrics in *. rewrite Hc. exact Hdom.
  - destruct (Collect_success prList w Hfree) as (w' & Hrun & _ & _ & _ & Hg & _).
    exists w'. split; [exact Hrun |].
    rewrite !Hg, !setItems_dom, Hdom. reflexivity.
Qed.

(** X10: every pass begins by taking the mutex and ends by releasing it,
    on the failure path as on the success path, and performs no other
    mutex operation in between. *)
Theorem pass_brackets_with_mutex gpr w :
  mutex (c w) = false →
  ∃ w' body, run gpr Collect w = Some (tt, w') ∧
    newOps w w' = MutexLock :: body ++ [MutexUnlock] ∧
    Forall (λ o, isMutexOp o = false) body.
Proof.
  intros Hfree. destruct gpr as [prList [e |]].
  - destruct (Collect_failure prList e w Hfree) as (w' & Hrun & _ & _ & _ & Ht).
    exists w', [CallGetPipelineRuns; LoggerLog (fetchErrorRecord e);
                LoggerLog (collectErrorRecord e)].
    split; [exact Hrun |]. split; [| repeat constructor].
    unfold newOps. rewrite Ht. apply drop_length_app.
  - destruct (Collect_success prList w Hfree) as (w' & Hrun & _ & _ & _ & _ & _ & _ & Ht).
    exists w', (CallGetPipelineRuns :: flat_map itemOps (Items prList)
                  ++ [GaugeCollect Scheduled; GaugeCollect Completed]).
    split; [exact Hrun |]. split.
    + unfold newOps. rewrite Ht, drop_length_app. unfold passOps. cbn.
      rewrite <- app_assoc. reflexivity.
    + constructor; [reflexivity |]. apply Forall_app.
      split; [apply flat_map_itemOps_no_mutex | repeat constructor].
Qed.

(** X11: a pass over an empty list leaves the collector as it is, logs
    nothing, and sends the values that the gauges already hold. *)
Theorem pass_over_empty_list (prList : PipelineRunList) w :
  mutex (c w) = false →
  Items prList = [] →
  ∃ w', run (prList, None) Collect w = Some (tt, w') ∧
    c w' = c w ∧
    newLogs w w' = [] ∧
    emitted w w' = prometheus.Collect (durationScheduled (c w))
                   ++ prometheus.Collect (durationCompleted (c w)).
Proof.
  intros Hfree Hnil.
  destruct (Collect_success prList w Hfree)
    as (w' & Hrun & Hl & Hm & Hd & Hg & Hch & Hlog & _).
  rewrite Hnil in Hg, Hlog. cbn in Hg, Hlog.
  assert (Hc : c w' = c w).
  { pose proof (gaugeVec_eq _ _ (Hd Scheduled) (Hg Scheduled)) as HS.
    pose proof (gaugeVec_eq _ _ (Hd Completed) (Hg Completed)) as HC.
    cbn in HS, HC. destruct (c w'), (c w). cbn in *. congruence. }
  exists w'. split; [exact Hrun |]. split; [exact Hc |]. split.
  - unfold newLogs. rewrite Hlog, app_nil_r. apply drop_all.
  - unfold emitted. rewrite Hch, drop_length_app, Hc. reflexivity.
Qed.

End PassTheory.

(** *** Two concurrent passes *)

Section SerializationTheory.

Context {Logger : Type}.
Variable calculateScheduledDuration : PipelineRun → float64 * option error.
Variable calculateCompletedDuration : PipelineRun → float64 * option error.

Abbreviation run := (@run Logger calculateScheduledDuration calculateCompletedDuration).
Abbreviation handle := (@handle Logger calculateScheduledDuration calculateCompletedDuration).
Abbreviation step := (@step Logger calculateScheduledDuration calculateCompletedDuration).
Abbreviation reachable :=
  (@reachable Logger calculateScheduledDuration calculateCompletedDuration).
Abbreviation serialized :=
  (@serialized Logger calculateScheduledDuration calculateCompletedDuration).

Implicit Types (w : World Logger) (cf : Conf Logger).

Lemma run_Vis (gpr : PipelineRunList * option error) (o : op)
    (k : res o → prog unit) w x w' :
  handle gpr o w = Some (x, w') → run gpr (Vis o k) w = run gpr (k x) w'.
Proof.
  intros Hh.
  change (run gpr (Vis o k) w)
    with (match handle gpr o w with
          | Some (x, w') => run gpr (k x) w'
          | None => None
          end).
  rewrite Hh. reflexivity.
Qed.

Lemma Collect_not_done : Collect ≠ Ret tt.
Proof. intros Heq. pose proof starting_Collect as Hs. rewrite Heq in Hs. exact Hs. Qed.

Lemma Collect_begins_with_Lock : ∃ k, Collect = Vis MutexLock k.
Proof. unfold Collect. eexists. reflexivity. Qed.

Lemma handle_enabled (gpr : PipelineRunList * option error) (o : op) w :
  o ≠ MutexLock → mutex (c w) = true → ∃ x w', handle gpr o w = Some (x, w').
Proof.
  intros Hnl Hm. destruct o; try congruence; cbn; rewrite ?Hm; eauto.
Qed.

Lemma handle_Lock_enabled (gpr : PipelineRunList * option error) w :
  mutex (c w) = false → ∃ x w', handle gpr MutexLock w = Some (x, w').
Proof. intros Hm. cbn. rewrite Hm. eauto. Qed.

(** Every step keeps the configuration on a sequential run. *)
Lemma step_serialized (gpr : tid → PipelineRunList * option error) w0 cf cf' :
  step gpr cf cf' → serialized gpr w0 cf → serialized gpr w0 cf'.
Proof.
  intros [cf0 t o k x w' Hth Hh] Hs.
  destruct Hs as
    [ Hall Hw
    | i Hi Hj Hm Hrun
    | i Hi Hj Hm Hrun
    | i w1 Hi Hj Hm Hrun1 Hrun2
    | i w1 Hi Hj Hm Hrun1 Hrun2 ].
  - destruct (idle_next _ o k (Hall t) Hth) as [-> Hk].
    pose proof (handle_Lock _ _ _ _ _ _ Hh) as [_ Hm'].
    apply (serialized_first _ _ _ _ _ t); cbn [threads world].
    + rewrite decide_True by reflexivity. apply Hk.
    + rewrite decide_False by apply other_ne. apply Hall.
    + exact Hm'.
    + rewrite decide_True by reflexivity.
      rewrite <- (Hall t), Hth, <- Hw. symmetry. apply run_Vis, Hh.
  - destruct (decide (t = i)) as [-> | Hne].
    + pose proof Hi as Hi'. rewrite Hth in Hi'.
      apply holding_next in Hi' as [Hnl [[-> Hk] | [Hnu Hk]]].
      * pose proof (handle_Unlock _ _ _ _ _ _ Hh) as [_ Hm'].
        apply (serialized_first_done _ _ _ _ _ i); cbn [threads world].
        -- rewrite decide_True by reflexivity. apply Hk.
        -- rewrite decide_False by apply other_ne. exact Hj.
        -- exact Hm'.
        -- rewrite <- Hrun, Hth, (run_Vis _ _ _ _ _ _ Hh), Hk. reflexivity.
      * pose proof (handle_other _ _ _ _ _ _ _ Hnl Hnu Hh) as Hm'.
        apply (serialized_first _ _ _ _ _ i); cbn [threads world].
        -- rewrite decide_True by reflexivity. apply Hk.
        -- rewrite decide_False by apply other_ne. exact Hj.
        -- congruence.
        -- rewrite decide_True by reflexivity.
           rewrite <- Hrun, Hth. symmetry. apply run_Vis, Hh.
    + apply ne_other in Hne as ->.
      destruct (idle_next _ o k Hj Hth) as [-> _].
      apply handle_Lock in Hh as [Hfree _]. congruence.
  - destruct (decide (t = i)) as [-> | Hne]; [congruence |].
    apply ne_other in Hne as ->.
    destruct (idle_next _ o k Hj Hth) as [-> Hk].
    pose proof (handle_Lock _ _ _ _ _ _ Hh) as [_ Hm'].
    apply (serialized_second _ _ _ _ _ i (world cf0)); cbn [threads world].
    + rewrite decide_False by (symmetry; apply other_ne). exact Hi.
    + rewrite decide_True by reflexivity. apply Hk.
    + exact Hm'.
    + exact Hrun.
    + rewrite decide_True by reflexivity.
      rewrite <- Hj, Hth. symmetry. apply run_Vis, Hh.
  - destruct (decide (t = i)) as [-> | Hne]; [congruence |].
    apply ne_other in Hne as ->.
    pose proof Hj as Hj'. rewrite Hth in Hj'.
    apply holding_next in Hj' as [Hnl [[-> Hk] | [Hnu Hk]]].
    + pose proof (handle_Unlock _ _ _ _ _ _ Hh) as [_ Hm'].
      apply (serialized_both_done _ _ _ _ _ i w1); cbn [threads world].
      * rewrite decide_False by (symmetry; apply other_ne). exact Hi.
      * rewrite decide_True by reflexivity. apply Hk.
      * exact Hm'.
      * exact Hrun1.
      * rewrite <- Hrun2, Hth, (run_Vis _ _ _ _ _ _ Hh), Hk. reflexivity.
    + pose proof (handle_other _ _ _ _ _ _ _ Hnl Hnu Hh) as Hm'.
      apply (serialized_second _ _ _ _ _ i w1); cbn [threads world].
      * rewrite decide_False by (symmetry; apply other_ne). exact Hi.
      * rewrite decide_True by reflexivity. apply Hk.
      * congruence.
      * exact Hrun1.
      * rewrite decide_True by reflexivity.
        rewrite <- Hrun2, Hth. symmetry. apply run_Vis, Hh.
  - destruct (decide (t = i)) as [-> | Hne]; [congruence |].
    apply ne_other in Hne as ->. congruence.
Qed.

Lemma reachable_serialized (gpr : tid → PipelineRunList * option error) w cf :
  reachable gpr w cf → serialized gpr w cf.
Proof.
  intros Hreach.
  refine (rtc_ind_r (λ cf, serialized gpr w cf) (initial w) _ _ cf Hreach).
  - apply serialized_none; reflexivity.
  - intros cf1 cf2 _ Hstep IH. exact (step_serialized gpr w cf1 cf2 Hstep IH).
Qed.

(** X12: two concurrent invocations of [Collect] are serializable: when
    both have returned, the world is the one that the two passes leave
    when they run one after the other, in one of the two orders. *)
Theorem concurrent_passes_are_serializable
    (gpr : tid → PipelineRunList * option error) w cf :
  reachable gpr w cf →
  (∀ j, threads cf j = Ret tt) →
  ∃ i w1,
    run (gpr i) Collect w = Some (tt, w1) ∧
    run (gpr (other i)) Collect w1 = Some (tt, world cf).
Proof.
  intros Hreach Hdone.
  destruct (reachable_serialized gpr w cf Hreach) as
    [ Hall Hw
    | i Hi Hj Hm Hrun
    | i Hi Hj Hm Hrun
    | i w1 Hi Hj Hm Hrun1 Hrun2
    | i w1 Hi Hj Hm Hrun1 Hrun2 ].
  - destruct Collect_not_done. rewrite <- (Hall T1). apply Hdone.
  - rewrite (Hdone i) in Hi. destruct Hi.
  - destruct Collect_not_done. rewrite <- Hj. apply Hdone.
  - rewrite (Hdone (other i)) in Hj. destruct Hj.
  - exists i, w1. split; assumption.
Qed.

(** X13: two concurrent invocations of [Collect] never deadlock: from a
    free mutex, in every configuration they can reach, either both have
    returned or one of them can perform its next operation. *)
Theorem concurrent_passes_never_deadlock
    (gpr : tid → PipelineRunList * option error) w cf :
  mutex (c w) = false →
  reachable gpr w cf →
  (∀ j, threads cf j = Ret tt) ∨ ∃ cf', step gpr cf cf'.
Proof.
  intros Hfree Hreach.
  destruct (reachable_serial calculateScheduledDuration calculateCompletedDuration
              gpr w cf Hfree Hreach) as
    [ Hall Hhist Hm
    | i Hi Hj Hfa Hm
    | i Hi Hj Hfa Hlast Hm
    | i h1 h2 Hi Hj Hhist Hfa1 Hfa2 Hlast Hhead Hm
    | i h1 h2 Hi Hj Hhist Hfa1 Hfa2 Hlast Hhead Hm ].
  - right. destruct Collect_begins_with_Lock as [k Hk].
    destruct (handle_Lock_enabled (gpr T1) (world cf) Hm) as (x & w' & Hh).
    eexists. apply (step_op _ _ gpr cf T1 MutexLock k x w'); [| exact Hh].
    rewrite (Hall T1). exact Hk.
  - right. destruct (threads cf i) as [[] | o k] eqn:Hth; [destruct Hi |].
    apply holding_next in Hi as [Hnl _].
    destruct (handle_enabled (gpr i) o (world cf) Hnl Hm) as (x & w' & Hh).
    eexists. exact (step_op _ _ gpr cf i o k x w' Hth Hh).
  - right. destruct Collect_begins_with_Lock as [k Hk].
    destruct (handle_Lock_enabled (gpr (other i)) (world cf) Hm) as (x & w' & Hh).
    eexists. apply (step_op _ _ gpr cf (other i) MutexLock k x w'); [| exact Hh].
    rewrite Hj. exact Hk.
  - right. destruct (threads cf (other i)) as [[] | o k] eqn:Hth; [destruct Hj |].
    apply holding_next in Hj as [Hnl _].
    destruct (handle_enabled (gpr (other i)) o (world cf) Hnl Hm) as (x & w' & Hh).
    eexists. exact (step_op _ _ gpr cf (other i) o k x w' Hth Hh).
  - left. intros j. destruct (decide (j = i)) as [-> | Hne]; [exact Hi |].
    apply ne_other in Hne as ->. exact Hj.
Qed.

End SerializationTheory.

(** *** The first pass of a new collector *)

Section FirstPass.

Context {Logger : Type}.
Variable calculateScheduledDuration : PipelineRun → float64 * option error.
Variable calculateCompletedDuration : PipelineRun → float64 * option error.

(** X14: the first pass of a collector made by [NewCollector] returns
    with the mutex released, whatever the source call returns.  When the
    listing succeeds, each gauge then holds a value for exactly the label
    tuples of the listed items, and the channel has received two samples
    per distinct label tuple; when it fails, both gauges are still empty
    and the channel has received nothing. *)
Theorem first_pass_label_tuples (lg : Logger) (gpr : PipelineRunList * option error) :
  ∃ w', run calculateScheduledDuration calculateCompletedDuration
            gpr Collect (newWorld lg) = Some (tt, w') ∧
    mutex (c w') = false ∧
    match gpr.2 with
    | None =>
        (∀ g, dom (gaugeMetrics g w') = list_to_set (labelTuple <$> Items gpr.1)) ∧
        length (ch w') =
          2 * size (list_to_set (labelTuple <$> Items gpr.1) : gset (string * string))
    | Some _ =>
        (∀ g, gaugeMetrics g w' = ∅) ∧ ch w' = []
    end.
Proof.
  destruct gpr as [prList [e |]]; cbn [fst snd].
  - destruct (run_Collect_failure calculateScheduledDuration calculateCompletedDuration
                prList e (newWorld lg) eq_refl) as (w' & Hrun & Hc & Hch & _).
    exists w'. split; [exact Hrun |]. unfold gaugeMetrics. rewrite Hc, Hch.
    split; [reflexivity |]. split; [intros []; reflexivity | reflexivity].
  - destruct (run_Collect_success calculateScheduledDuration calculateCompletedDuration
                prList (newWorld lg) eq_refl)
      as (w' & Hrun & _ & Hm & _ & Hg & Hch & _).
    assert (Hdom : ∀ g, dom (gaugeMetrics g w') = list_to_set (labelTuple <$> Items prList)).
    { intros g. rewrite Hg, setItems_dom.
      replace (gaugeMetrics g (newWorld lg)) with (∅ : gmap (string * string) float64)
        by (destruct g; reflexivity).
      rewrite dom_empty_L, (left_id_L ∅ (∪)). reflexivity. }
    exists w'. split; [exact Hrun |]. split; [exact Hm |]. split; [exact Hdom |].
    rewrite Hch. cbn [ch newWorld app]. rewrite length_app, !length_Collect.
    change (prometheus.metrics (gaugeVec Scheduled (c w'))) with (gaugeMetrics Scheduled w').
    change (prometheus.metrics (gaugeVec Completed (c w'))) with (gaugeMetrics Completed w').
    rewrite <- !size_dom, !Hdom. lia.
Qed.

End FirstPass.

(** ** The further properties at concrete runs *)

Lemma pass_keeps_other_label_tuples_witness :
  mutex (c worldAB) = false ∧
  ∃ w', CollectWith ({| Items := [runA'] |}, None) worldAB = Some (tt, w') ∧
    (∀ g k, (∀ r, r ∈ [runA'] → labelTuple r ≠ k) →
            gaugeMetrics g w' !! k = gaugeMetrics g worldAB !! k) ∧
    (∀ g k, is_Some (gaugeMetrics g worldAB !! k) → is_Some (gaugeMetrics g w' !! k)).
Proof.
  assert (Hfree : mutex (c worldAB) = false) by (vm_compute; reflexivity).
  split; [exact Hfree |].
  exact (pass_keeps_other_label_tuples specScheduled specCompleted
           {| Items := [runA'] |} worldAB Hfree).
Defined.

Lemma pass_last_item_wins_witness :
  mutex (c freshWorld) = false ∧
  Items listABA = [runA; runB] ++ runA' :: [] ∧
  (∀ r', r' ∈ [] → labelTuple r' ≠ labelTuple runA') ∧
  ∃ w', CollectWith (listABA, None) freshWorld = Some (tt, w') ∧
    ∀ g, gaugeMetrics g w' !! labelTuple runA'
         = Some (durationOf specScheduled specCompleted g runA').
Proof.
  assert (Hnone : ∀ r' : PipelineRun, r' ∈ [] → labelTuple r' ≠ labelTuple runA')
    by (intros r' Hin; inversion Hin).
  split; [reflexivity |]. split; [reflexivity |]. split; [exact Hnone |].
  exact (pass_last_item_wins specScheduled specCompleted listABA freshWorld
           [runA; runB] runA' [] eq_refl eq_refl Hnone).
Defined.

Lemma pass_emits_gauge_contents_witness :
  mutex (c worldAB) = false ∧
  ∃ w', CollectWith ({| Items := [runA'] |}, None) worldAB = Some (tt, w') ∧
    emitted worldAB w' = prometheus.Collect (durationScheduled (c w'))
                         ++ prometheus.Collect (durationCompleted (c w')) ∧
    (∀ g k (x : float64), gaugeMetrics g w' !! k = Some x →
       {| prometheus.metricDesc := prometheus.desc (gaugeVec g (c worldAB));
          prometheus.labelValues := k;
          prometheus.value := x |} ∈ emitted worldAB w') ∧
    length (emitted worldAB w') =
      size (gaugeMetrics Scheduled w') + size (gaugeMetrics Completed w').
Proof.
  assert (Hfree : mutex (c worldAB) = false) by (vm_compute; reflexivity).
  split; [exact Hfree |].
  exact (pass_emits_gauge_contents specScheduled specCompleted
           {| Items := [runA'] |} worldAB Hfree).
Defined.

Lemma successive_passes_compose_witness :
  mutex (c freshWorld) = false ∧
  ∃ w1 w2 w12,
    CollectWith (listAB, None) freshWorld = Some (tt, w1) ∧
    CollectWith ({| Items := [runA'] |}, None) w1 = Some (tt, w2) ∧
    CollectWith ({| Items := Items listAB ++ [runA'] |}, None) freshWorld = Some (tt, w12) ∧
    (∀ g, gaugeVec g (c w2) = gaugeVec g (c w12)) ∧
    emitted w1 w2 = emitted freshWorld w12.
Proof.
  split; [reflexivity |].
  exact (successive_passes_compose specScheduled specCompleted
           listAB {| Items := [runA'] |} freshWorld eq_refl).
Defined.

Lemma repeated_pass_is_idempotent_witness :
  mutex (c freshWorld) = false ∧
  ∃ w1 w2,
    CollectWith (listAB, None) freshWorld = Some (tt, w1) ∧
    CollectWith (listAB, None) w1 = Some (tt, w2) ∧
    (∀ g, gaugeVec g (c w2) = gaugeVec g (c w1)) ∧
    emitted w1 w2 = emitted freshWorld w1.
Proof.
  split; [reflexivity |].
  exact (repeated_pass_is_idempotent specScheduled specCompleted listAB freshWorld eq_refl).
Defined.

Lemma failed_listing_operations_witness :
  mutex (c worldAB) = false ∧
  ∃ w', CollectWith ({| Items := [] |}, Some SourceUnavailable) worldAB = Some (tt, w') ∧
    newOps worldAB w' = [MutexLock; CallGetPipelineRuns;
                         LoggerLog (fetchErrorRecord SourceUnavailable);
                         LoggerLog (collectErrorRecord SourceUnavailable); MutexUnlock].
Proof.
  assert (Hfree : mutex (c worldAB) = false) by (vm_compute; reflexivity).
  split; [exact Hfree |].
  exact (failed_listing_operations specScheduled specCompleted
           {| Items := [] |} SourceUnavailable worldAB Hfree).
Defined.

Lemma pass_logs_exactly_failures_witness :
  mutex (c freshWorld) = false ∧
  ∃ w', CollectWith ({| Items := [runC; runA; runB; runC] |}, None) freshWorld
        = Some (tt, w') ∧
    newLogs freshWorld w' =
      flat_map (λ r,
                  match (specScheduled r).2 with
                  | Some e => [scheduledErrorRecord e]
                  | None => []
                  end ++
                  match (specCompleted r).2 with
                  | Some e => [completedErrorRecord e]
                  | None => []
                  end)
               [runC; runA; runB; runC] ∧
    length (newLogs freshWorld w')
      = sum_list (failures specScheduled specCompleted <$> [runC; runA; runB; runC]) ∧
    ∀ rec, rec ∈ newLogs freshWorld w' ↔
      ∃ r e, r ∈ [runC; runA; runB; runC] ∧
        (((specScheduled r).2 = Some e ∧ rec = scheduledErrorRecord e) ∨
         ((specCompleted r).2 = Some e ∧ rec = completedErrorRecord e)).
Proof.
  split; [reflexivity |].
  exact (pass_logs_exactly_failures specScheduled specCompleted
           {| Items := [runC; runA; runB; runC] |} freshWorld eq_refl).
Defined.

Lemma pass_preserves_descriptors_witness :
  mutex (c worldAB) = false ∧
  ∃ w', CollectWith (listAB, None) worldAB = Some (tt, w') ∧
    Describe (c w') = Describe (c worldAB) ∧
    logger (c w') = logger (c worldAB) ∧
    ∀ s, s ∈ emitted worldAB w' → prometheus.metricDesc s ∈ Describe (c worldAB).
Proof.
  assert (Hfree : mutex (c worldAB) = false) by (vm_compute; reflexivity).
  split; [exact Hfree |].
  exact (pass_preserves_descriptors specScheduled specCompleted (listAB, None) worldAB Hfree).
Defined.

Lemma pass_keeps_gauges_aligned_witness :
  mutex (c freshWorld) = false ∧
  dom (gaugeMetrics Scheduled freshWorld) = dom (gaugeMetrics Completed freshWorld) ∧
  ∃ w', CollectWith (listAB, None) freshWorld = Some (tt, w') ∧
    dom (gaugeMetrics Scheduled w') = dom (gaugeMetrics Completed w').
Proof.
  split; [reflexivity |]. split; [reflexivity |].
  exact (pass_keeps_gauges_aligned specScheduled specCompleted (listAB, None) freshWorld
           eq_refl eq_refl).
Defined.

Lemma pass_brackets_with_mutex_witness :
  mutex (c freshWorld) = false ∧
  ∃ w' body, CollectWith (listAB, None) freshWorld = Some (tt, w') ∧
    newOps freshWorld w' = MutexLock :: body ++ [MutexUnlock] ∧
    Forall (λ o, isMutexOp o = false) body.
Proof.
  split; [reflexivity |].
  exact (pass_brackets_with_mutex specScheduled specCompleted (listAB, None) freshWorld
           eq_refl).
Defined.

Lemma pass_over_empty_list_witness :
  mutex (c worldAB) = false ∧
  Items {| Items := [] |} = [] ∧
  ∃ w', CollectWith ({| Items := [] |}, None) worldAB = Some (tt, w') ∧
    c w' = c worldAB ∧
    newLogs worldAB w' = [] ∧
    emitted worldAB w' = prometheus.Collect (durationScheduled (c worldAB))
                         ++ prometheus.Collect (durationCompleted (c worldAB)).
Proof.
  assert (Hfree : mutex (c worldAB) = false) by (vm_compute; reflexivity).
  split; [exact Hfree |]. split; [reflexivity |].
  exact (pass_over_empty_list specScheduled specCompleted {| Items := [] |} worldAB
           Hfree eq_refl).
Defined.

Lemma concurrent_passes_are_serializable_witness :
  ∃ cf,
    reachable specScheduled specCompleted
      (λ i, match i with
            | T1 => (listAB, None)
            | T2 => ({| Items := [] |}, Some SourceUnavailable)
            end) freshWorld cf ∧
    (∀ j, threads cf j = Ret tt) ∧
    ∃ i w1,
      CollectWith (match i with
                   | T1 => (listAB, None)
                   | T2 => ({| Items := [] |}, Some SourceUnavailable)
                   end) freshWorld = Some (tt, w1) ∧
      CollectWith (match other i with
                   | T1 => (listAB, None)
                   | T2 => ({| Items := [] |}, Some SourceUnavailable)
                   end) w1 = Some (tt, world cf).
Proof.
  destruct (both_passes_complete specScheduled specCompleted
              (λ i, match i with
                    | T1 => (listAB, None)
                    | T2 => ({| Items := [] |}, Some SourceUnavailable)
                    end) freshWorld eq_refl) as (cf & Hreach & Hdone).
  exists cf. split; [exact Hreach |]. split; [exact Hdone |].
  exact (concurrent_passes_are_serializable specScheduled specCompleted _
           freshWorld cf Hreach Hdone).
Defined.

Lemma concurrent_passes_never_deadlock_witness :
  mutex (c freshWorld) = false ∧
  reachable specScheduled specCompleted (λ _, (listAB, None)) freshWorld lockedByFirst ∧
  ((∀ j, threads lockedByFirst j = Ret tt) ∨
   ∃ cf', step specScheduled specCompleted (λ _, (listAB, None)) lockedByFirst cf').
Proof.
  assert (Hreach : reachable specScheduled specCompleted (λ _, (listAB, None))
                     freshWorld lockedByFirst).
  { eapply rtc_l; [| apply rtc_refl].
    exact (step_op specScheduled specCompleted (λ _, (listAB, None))
             (initial freshWorld) T1 MutexLock _ tt _ eq_refl eq_refl). }
  split; [reflexivity |]. split; [exact Hreach |].
  exact (concurrent_passes_never_deadlock specScheduled specCompleted
           (λ _, (listAB, None)) freshWorld lockedByFirst eq_refl Hreach).
Defined.
